(** * byte_buffer_queue: byte accounting over a bounded blocking queue

  A shallow embedding of [srslte::byte_buffer_queue]
  (lib/include/srslte/upper/byte_buffer_queue.h) together with the
  properties of its byte counter, its FIFO discipline and its capacity
  bound.  The queue is executed sequentially: a call that would park the
  calling thread is recorded as [Suspended]. *)

From Stdlib Require Import ZArith List Bool Lia.
Import ListNotations.
Open Scope Z_scope.

Set Implicit Arguments.

(** ** 32-bit unsigned arithmetic *)

Module UInt32.

Definition modulus : Z := 2 ^ 32.

Definition wrap (z : Z) : Z := z mod modulus.

(** [a + b] on [uint32_t]. *)
Definition add (a b : Z) : Z := wrap (a + b).

(** [a - b] on [uint32_t]. *)
Definition sub (a b : Z) : Z := wrap (a - b).

(** [z] is the value of some [uint32_t]. *)
Definition in_range (z : Z) : Prop := 0 <= z < modulus.

End UInt32.

(** ** Outcome of a call

  [Returned a]: the call came back with [a].
  [Suspended]: the call parked the caller on the queue's wait condition;
  with no other thread running it does not come back.
  [Fault]: the call dereferenced a null buffer handle. *)

Inductive outcome (A : Type) : Type :=
| Returned (a : A)
| Suspended
| Fault.

Arguments Suspended {A}.
Arguments Fault {A}.

Definition bind {A B : Type} (m : outcome A) (k : A -> outcome B) : outcome B :=
  match m with
  | Returned a => k a
  | Suspended => Suspended
  | Fault => Fault
  end.

Notation "x <- m ;; k" := (bind m (fun x => k))
  (at level 61, m at next level, right associativity).

(** [srslte::error_type<T>]: success, or the error value handed back. *)
Inductive error_type (T : Type) : Type :=
| Success
| Error (t : T).

Arguments Success {T}.

(** ** Buffers *)

(** Modelled from the spec: [byte_buffer_t] is declared in
  srslte/common/common.h, which is not part of the sources at hand.  The
  queue reads one field of it, the [uint32_t] length [N_bytes]; the
  payload [msg] is carried along untouched. *)
Record byte_buffer_t : Type := {
  N_bytes : Z;
  msg : list Byte.byte
}.

(** [unique_byte_buffer_t] is an owning pointer: [None] is [nullptr]. *)
Definition unique_byte_buffer_t : Type := option byte_buffer_t.

Definition wf_buffer (b : unique_byte_buffer_t) : Prop :=
  match b with
  | None => True
  | Some p => UInt32.in_range (N_bytes p)
  end.

(** ** The slot store *)

Section SlotStore.

(** Element type, the state the hooks act on, and the two hooks
    ([PushingCallback], [PoppingCallback]). *)
Variables T A : Type.
Variable push_func : T -> A -> outcome A.
Variable pop_func : T -> A -> outcome A.

(** Modelled from the spec: [dyn_blocking_queue] is defined in
    srslte/adt/circular_buffer.h, which is not part of the sources at
    hand.  The store is an ordered sequence of slots, head first, with a
    capacity bound. *)
Record dyn_blocking_queue : Type := {
  circ_buffer : list T;
  capacity : Z
}.

(** Modelled from the spec: [size() -> occupied_count]. *)
Definition occupied_count (s : dyn_blocking_queue) : Z :=
  Z.of_nat (length (circ_buffer s)).

(** Modelled from the spec: [empty() -> occupied_count == 0]. *)
Definition empty (s : dyn_blocking_queue) : bool := occupied_count s =? 0.

(** Modelled from the spec: [full() -> occupied_count == capacity]. *)
Definition full (s : dyn_blocking_queue) : bool :=
  occupied_count s =? capacity s.

(** Modelled from the spec: the admission check of [push_blocking] and
    [try_push].  A free slot exists while the occupancy is below the
    capacity bound; after a resize below the occupancy admission stays
    closed until consumption brings the occupancy below the new bound. *)
Definition has_free_slot (s : dyn_blocking_queue) : bool :=
  occupied_count s <? capacity s.

Definition insert_tail (t : T) (s : dyn_blocking_queue) : dyn_blocking_queue :=
  {| circ_buffer := circ_buffer s ++ [t]; capacity := capacity s |}.

Definition with_slots (l : list T) (s : dyn_blocking_queue) : dyn_blocking_queue :=
  {| circ_buffer := l; capacity := capacity s |}.

(** Modelled from the spec: [push_blocking(buffer)] suspends the caller
    until a free slot exists, then inserts at the tail; the push hook runs
    once after the insertion and before the call returns. *)
Definition push_blocking (t : T) (s : dyn_blocking_queue) (a : A)
  : outcome (dyn_blocking_queue * A) :=
  if has_free_slot s then
    a' <- push_func t a ;;
    Returned (insert_tail t s, a')
  else Suspended.

(** Modelled from the spec: [try_push(buffer)] attempts the insertion; on
    a store without a free slot it returns at once and hands the buffer
    back, and no hook runs. *)
Definition try_push (t : T) (s : dyn_blocking_queue) (a : A)
  : outcome (error_type T * dyn_blocking_queue * A) :=
  if has_free_slot s then
    a' <- push_func t a ;;
    Returned (Success, insert_tail t s, a')
  else Returned (Error t, s, a).

(** Modelled from the spec: [pop_blocking()] suspends until a buffer is
    present, then removes and returns the head; the pop hook runs once
    after the removal and before the call returns. *)
Definition pop_blocking (s : dyn_blocking_queue) (a : A)
  : outcome (T * dyn_blocking_queue * A) :=
  match circ_buffer s with
  | [] => Suspended
  | t :: rest =>
      a' <- pop_func t a ;;
      Returned (t, with_slots rest s, a')
  end.

(** Modelled from the spec: [try_pop(obj)] attempts the removal; on an
    empty store it returns [false] at once and leaves the store as it was.
    The spec does not say what [obj] holds after a failed pop; here it is
    handed back as it came, and no property below depends on it. *)
Definition try_pop (obj : T) (s : dyn_blocking_queue) (a : A)
  : outcome (bool * T * dyn_blocking_queue * A) :=
  match circ_buffer s with
  | [] => Returned (false, obj, s, a)
  | t :: rest =>
      a' <- pop_func t a ;;
      Returned (true, t, with_slots rest s, a')
  end.

(** Modelled from the spec: [try_call_on_front(visitor)] calls the visitor
    on the head element without removing it, and does nothing on an empty
    store.  The visitor's captured variables are the state [V]. *)
Definition try_call_on_front (V : Type) (visitor : T -> V -> V)
           (s : dyn_blocking_queue) (v : V) : dyn_blocking_queue * V :=
  match circ_buffer s with
  | [] => (s, v)
  | front_val :: _ => (s, visitor front_val v)
  end.

(** Modelled from the spec: [resize(new_capacity)] changes the capacity
    bound of future admission checks and evicts nothing. *)
Definition set_size (size : Z) (s : dyn_blocking_queue) : dyn_blocking_queue :=
  {| circ_buffer := circ_buffer s; capacity := size |}.

End SlotStore.

Arguments Build_dyn_blocking_queue {T}.
Arguments try_call_on_front {T V}.

(** ** The accounted queue: [class byte_buffer_queue] *)

(** The two private members: the slot store and the byte counter
    [uint32_t unread_bytes = 0]. *)
Record byte_buffer_queue : Type := {
  queue : dyn_blocking_queue unique_byte_buffer_t;
  unread_bytes : Z
}.

(** [push_callback::operator()]: [*unread_bytes += msg->N_bytes]. *)
Definition push_callback (msg : unique_byte_buffer_t) (unread : Z) : outcome Z :=
  match msg with
  | None => Fault
  | Some p => Returned (UInt32.add unread (N_bytes p))
  end.

(** [pop_callback::operator()]:
    [*unread_bytes -= std::min(msg->N_bytes, *unread_bytes)]. *)
Definition pop_callback (msg : unique_byte_buffer_t) (unread : Z) : outcome Z :=
  match msg with
  | None => Fault
  | Some p => Returned (UInt32.sub unread (Z.min (N_bytes p) unread))
  end.

(** The constructor [byte_buffer_queue(int capacity = 128)]. *)
Definition make (capacity : Z) : byte_buffer_queue :=
  {| queue := {| circ_buffer := []; capacity := capacity |};
     unread_bytes := 0 |}.

Definition default_capacity : Z := 128.

(** [void write(unique_byte_buffer_t msg)]. *)
Definition write (m : unique_byte_buffer_t) (q : byte_buffer_queue)
  : outcome byte_buffer_queue :=
  r <- push_blocking push_callback m (queue q) (unread_bytes q) ;;
  Returned {| queue := fst r; unread_bytes := snd r |}.

(** [error_type<unique_byte_buffer_t> try_write(unique_byte_buffer_t&& msg)]. *)
Definition try_write (m : unique_byte_buffer_t) (q : byte_buffer_queue)
  : outcome (error_type unique_byte_buffer_t * byte_buffer_queue) :=
  r <- try_push push_callback m (queue q) (unread_bytes q) ;;
  Returned (fst (fst r), {| queue := snd (fst r); unread_bytes := snd r |}).

(** [unique_byte_buffer_t read()]. *)
Definition read (q : byte_buffer_queue)
  : outcome (unique_byte_buffer_t * byte_buffer_queue) :=
  r <- pop_blocking pop_callback (queue q) (unread_bytes q) ;;
  Returned (fst (fst r), {| queue := snd (fst r); unread_bytes := snd r |}).

(** [bool try_read(unique_byte_buffer_t* msg)]: the result and the new value
    of [*msg]. *)
Definition try_read (m : unique_byte_buffer_t) (q : byte_buffer_queue)
  : outcome (bool * unique_byte_buffer_t * byte_buffer_queue) :=
  r <- try_pop pop_callback m (queue q) (unread_bytes q) ;;
  Returned (fst (fst (fst r)), snd (fst (fst r)),
            {| queue := snd (fst r); unread_bytes := snd r |}).

(** [void resize(uint32_t capacity)]. *)
Definition resize (capacity : Z) (q : byte_buffer_queue) : byte_buffer_queue :=
  {| queue := set_size capacity (queue q); unread_bytes := unread_bytes q |}.

(** [uint32_t size()]: [(uint32_t)queue.size()]. *)
Definition size (q : byte_buffer_queue) : Z :=
  UInt32.wrap (occupied_count (queue q)).

(** [uint32_t size_bytes()]. *)
Definition size_bytes (q : byte_buffer_queue) : Z := unread_bytes q.

(** The visitor of [size_tail_bytes], acting on its captured [size_next]. *)
Definition front_visitor (front_val : unique_byte_buffer_t) (size_next : Z) : Z :=
  match front_val with
  | Some p => UInt32.add size_next (N_bytes p)
  | None => size_next
  end.

(** [uint32_t size_tail_bytes()]: the value returned and the queue after the
    call. *)
Definition size_tail_bytes (q : byte_buffer_queue) : Z * byte_buffer_queue :=
  let size_next := 0 in
  let r := try_call_on_front front_visitor (queue q) size_next in
  (snd r, {| queue := fst r; unread_bytes := unread_bytes q |}).

(** [void reset()]: [unread_bytes = 0]. *)
Definition reset (q : byte_buffer_queue) : byte_buffer_queue :=
  {| queue := queue q; unread_bytes := 0 |}.

(** [bool is_empty()]. *)
Definition is_empty (q : byte_buffer_queue) : bool := empty (queue q).

(** [bool is_full()]. *)
Definition is_full (q : byte_buffer_queue) : bool := full (queue q).

(** ** Derived notions used in the statements *)

Definition buffer_length (b : unique_byte_buffer_t) : Z :=
  match b with
  | Some p => N_bytes p
  | None => 0
  end.

Definition sum_lengths (l : list unique_byte_buffer_t) : Z :=
  fold_right (fun b acc => buffer_length b + acc) 0 l.

(** The buffers resident in the slot store, head first. *)
Definition resident (q : byte_buffer_queue) : list unique_byte_buffer_t :=
  circ_buffer (queue q).

(** The true number of buffered bytes. *)
Definition resident_bytes (q : byte_buffer_queue) : Z :=
  sum_lengths (resident q).

(** Every stored field holds a value of its C++ type. *)
Definition wf_queue (q : byte_buffer_queue) : Prop :=
  UInt32.in_range (unread_bytes q) /\ Forall wf_buffer (resident q).

(** ** Sequential runs *)

Inductive op : Type :=
| Write (m : unique_byte_buffer_t)
| TryWrite (m : unique_byte_buffer_t)
| Read
| TryRead
| Resize (capacity : Z)
| Reset
| SizeTailBytes.

(** A queue together with the buffers its successful pushes took in and the
    buffers its successful pops gave out, oldest first. *)
Record history : Type := {
  now : byte_buffer_queue;
  pushed : list unique_byte_buffer_t;
  popped : list unique_byte_buffer_t
}.

Definition start (capacity : Z) : history :=
  {| now := make capacity; pushed := []; popped := [] |}.

Definition exec (o : op) (h : history) : outcome history :=
  match o with
  | Write m =>
      q' <- write m (now h) ;;
      Returned {| now := q'; pushed := pushed h ++ [m]; popped := popped h |}
  | TryWrite m =>
      r <- try_write m (now h) ;;
      match fst r with
      | Success =>
          Returned {| now := snd r; pushed := pushed h ++ [m]; popped := popped h |}
      | Error _ =>
          Returned {| now := snd r; pushed := pushed h; popped := popped h |}
      end
  | Read =>
      r <- read (now h) ;;
      Returned {| now := snd r; pushed := pushed h; popped := popped h ++ [fst r] |}
  | TryRead =>
      r <- try_read None (now h) ;;
      if fst (fst r) then
        Returned {| now := snd r; pushed := pushed h;
                    popped := popped h ++ [snd (fst r)] |}
      else
        Returned {| now := snd r; pushed := pushed h; popped := popped h |}
  | Resize c =>
      Returned {| now := resize c (now h); pushed := pushed h; popped := popped h |}
  | Reset =>
      Returned {| now := reset (now h); pushed := pushed h; popped := popped h |}
  | SizeTailBytes =>
      Returned {| now := snd (size_tail_bytes (now h));
                  pushed := pushed h; popped := popped h |}
  end.

Fixpoint run (ops : list op) (h : history) : outcome history :=
  match ops with
  | [] => Returned h
  | o :: rest => h' <- exec o h ;; run rest h'
  end.

Definition is_reset (o : op) : bool :=
  match o with
  | Reset => true
  | _ => false
  end.

(** The buffers handed to the queue in [ops] all carry a [uint32_t] length. *)
Definition wf_op (o : op) : Prop :=
  match o with
  | Write m | TryWrite m => wf_buffer m
  | _ => True
  end.

(** Along the run of [ops] from [h], the true number of buffered bytes stays
    below [2^32] after every step. *)
Fixpoint fits (ops : list op) (h : history) : bool :=
  match ops with
  | [] => true
  | o :: rest =>
      match exec o h with
      | Returned h' =>
          (resident_bytes (now h') <? UInt32.modulus) && fits rest h'
      | _ => true
      end
  end.

(** ** Sample buffers, steps and invariants *)

(** A buffer of [n] bytes. *)
Definition pdu (n : Z) : unique_byte_buffer_t :=
  Some {| N_bytes := n; msg := [] |}.

(** A queue whose store holds [slots] under capacity bound [c] and whose
    counter reads [unread]; the counter need not agree with the store. *)
Definition queue_of (slots : list unique_byte_buffer_t) (c unread : Z)
  : byte_buffer_queue :=
  {| queue := {| circ_buffer := slots; capacity := c |};
     unread_bytes := unread |}.

(** [n] calls of [size_tail_bytes] in a row: the values returned, in order,
    and the queue after the last call. *)
Fixpoint peeks (n : nat) (q : byte_buffer_queue) : list Z * byte_buffer_queue :=
  match n with
  | O => ([], q)
  | S k =>
      let r := size_tail_bytes q in
      let rs := peeks k (snd r) in
      (fst r :: fst rs, snd rs)
  end.

(** What one returning call does to a history. *)
Inductive step (h : history) : op -> history -> Prop :=
| step_push (o : op) (p : byte_buffer_t) :
    o = Write (Some p) \/ o = TryWrite (Some p) ->
    has_free_slot (queue (now h)) = true ->
    step h o
         {| now := {| queue := insert_tail (Some p) (queue (now h));
                      unread_bytes :=
                        UInt32.add (unread_bytes (now h)) (N_bytes p) |};
            pushed := pushed h ++ [Some p];
            popped := popped h |}
| step_reject (m : unique_byte_buffer_t) :
    has_free_slot (queue (now h)) = false ->
    step h (TryWrite m) h
| step_pop (o : op) (p : byte_buffer_t) (rest : list unique_byte_buffer_t) :
    o = Read \/ o = TryRead ->
    resident (now h) = Some p :: rest ->
    step h o
         {| now := {| queue := with_slots rest (queue (now h));
                      unread_bytes :=
                        UInt32.sub (unread_bytes (now h))
                                   (Z.min (N_bytes p) (unread_bytes (now h))) |};
            pushed := pushed h;
            popped := popped h ++ [Some p] |}
| step_starve :
    resident (now h) = [] ->
    step h TryRead h
| step_resize (c : Z) :
    step h (Resize c)
         {| now := resize c (now h); pushed := pushed h; popped := popped h |}
| step_reset :
    step h Reset
         {| now := reset (now h); pushed := pushed h; popped := popped h |}
| step_peek :
    step h SizeTailBytes h.

Definition fifo (h : history) : Prop :=
  pushed h = popped h ++ resident (now h).

(** The counter agrees with the store, and the store holds [uint32_t]
    lengths. *)
Definition accounted (h : history) : Prop :=
  unread_bytes (now h) = resident_bytes (now h) /\
  Forall wf_buffer (resident (now h)).

Definition within_bound (h : history) : Prop :=
  occupied_count (queue (now h)) <= capacity (queue (now h)).

(** A [Resize c] called on [h] does not set the bound below the occupancy. *)
Definition resize_keeps_room (o : op) (h : history) : bool :=
  match o with
  | Resize c => occupied_count (queue (now h)) <=? c
  | _ => true
  end.

(** Along the run of [ops] from [h], no resize sets the bound below the
    occupancy of the moment. *)
Fixpoint never_shrinks_below (ops : list op) (h : history) : bool :=
  match ops with
  | [] => true
  | o :: rest =>
      resize_keeps_room o h &&
      match exec o h with
      | Returned h' => never_shrinks_below rest h'
      | _ => true
      end
  end.

(** ** Further invariants of a run *)

Definition is_push (o : op) : bool :=
  match o with
  | Write _ | TryWrite _ => true
  | _ => false
  end.

(** The counter is a [uint32_t] that does not exceed the true number of
    buffered bytes, and the store holds [uint32_t] lengths. *)
Definition not_over (h : history) : Prop :=
  UInt32.in_range (unread_bytes (now h)) /\
  unread_bytes (now h) <= resident_bytes (now h) /\
  Forall wf_buffer (resident (now h)).

(** No handle of [l] is [nullptr]. *)
Definition no_null (l : list unique_byte_buffer_t) : Prop :=
  Forall (fun b => b <> None) l.

Definition handles_present (h : history) : Prop :=
  no_null (pushed h) /\ no_null (popped h) /\ no_null (resident (now h)).

(** The counter reads 0 and the store holds [uint32_t] lengths. *)
Definition drained_counter (h : history) : Prop :=
  unread_bytes (now h) = 0 /\ Forall wf_buffer (resident (now h)).

(** A call other than [resize] and [reset] whose buffer, if any, carries a
    [uint32_t] length of at most [L] bytes. *)
Definition quiet_op (L : Z) (o : op) : Prop :=
  match o with
  | Write m | TryWrite m => wf_buffer m /\ buffer_length m <= L
  | Read | TryRead | SizeTailBytes => True
  | Resize _ | Reset => False
  end.

(** The counter agrees with a store of at most [c] buffers of at most [L]
    bytes each, under the capacity bound [c]. *)
Definition bounded_store (L c : Z) (h : history) : Prop :=
  accounted h /\
  within_bound h /\
  capacity (queue (now h)) = c /\
  Forall (fun b => buffer_length b <= L) (resident (now h)).

Definition is_pop (o : op) : bool :=
  match o with
  | Read | TryRead => true
  | _ => false
  end.

(** The history that starts at the queue state [q]. *)
Definition observe (q : byte_buffer_queue) : history :=
  {| now := q; pushed := []; popped := [] |}.

(** * Properties *)

(** ** Arithmetic of the counter *)

Lemma modulus_pos : 0 < UInt32.modulus.
Proof. reflexivity. Qed.

Lemma wrap_in_range (z : Z) : UInt32.in_range (UInt32.wrap z).
Proof.
  unfold UInt32.in_range, UInt32.wrap.
  apply Z.mod_pos_bound, modulus_pos.
Qed.

Lemma wrap_small (z : Z) : UInt32.in_range z -> UInt32.wrap z = z.
Proof.
  unfold UInt32.in_range, UInt32.wrap. intros H.
  now apply Z.mod_small.
Qed.

Lemma wrap_once_over (z : Z) :
  UInt32.modulus <= z < 2 * UInt32.modulus ->
  UInt32.wrap z = z - UInt32.modulus.
Proof.
  unfold UInt32.wrap. intros H.
  symmetry. apply Z.mod_unique with (q := 1); lia.
Qed.

(** The clamped subtraction of [pop_callback] stays within [0 .. unread]. *)
Lemma clamped_sub_exact (unread n : Z) :
  UInt32.in_range unread -> 0 <= n ->
  UInt32.sub unread (Z.min n unread) = unread - Z.min n unread.
Proof.
  intros Hu Hn. unfold UInt32.sub. apply wrap_small.
  unfold UInt32.in_range in *. lia.
Qed.

(** ** Sums of lengths *)

Lemma sum_lengths_cons (b : unique_byte_buffer_t) (l : list unique_byte_buffer_t) :
  sum_lengths (b :: l) = buffer_length b + sum_lengths l.
Proof. reflexivity. Qed.

Lemma sum_lengths_app (l1 l2 : list unique_byte_buffer_t) :
  sum_lengths (l1 ++ l2) = sum_lengths l1 + sum_lengths l2.
Proof.
  induction l1 as [| b l1 IH].
  - reflexivity.
  - rewrite <- app_comm_cons, !sum_lengths_cons, IH. lia.
Qed.

Lemma buffer_length_nonneg (b : unique_byte_buffer_t) :
  wf_buffer b -> 0 <= buffer_length b.
Proof.
  destruct b as [p |]; simpl; unfold UInt32.in_range; lia.
Qed.

Lemma sum_lengths_nonneg (l : list unique_byte_buffer_t) :
  Forall wf_buffer l -> 0 <= sum_lengths l.
Proof.
  induction 1 as [| b l Hb _ IH].
  - reflexivity.
  - rewrite sum_lengths_cons. apply buffer_length_nonneg in Hb. lia.
Qed.

(** ** What a call that returns has done *)

Lemma queue_eta (q : byte_buffer_queue) :
  {| queue := queue q; unread_bytes := unread_bytes q |} = q.
Proof. now destruct q. Qed.

Lemma write_returned (m : unique_byte_buffer_t) (q q' : byte_buffer_queue) :
  write m q = Returned q' ->
  exists p,
    m = Some p /\
    has_free_slot (queue q) = true /\
    q' = {| queue := insert_tail m (queue q);
            unread_bytes := UInt32.add (unread_bytes q) (N_bytes p) |}.
Proof.
  unfold write, push_blocking.
  destruct (has_free_slot (queue q)); [| discriminate].
  destruct m as [p |]; simpl; [| discriminate].
  intros H. injection H as <-. now exists p.
Qed.

Lemma try_write_returned (m : unique_byte_buffer_t) (q q' : byte_buffer_queue)
      (e : error_type unique_byte_buffer_t) :
  try_write m q = Returned (e, q') ->
  (e = Success /\ write m q = Returned q') \/
  (e = Error m /\ has_free_slot (queue q) = false /\ q' = q).
Proof.
  unfold try_write, write, try_push, push_blocking.
  destruct (has_free_slot (queue q)).
  - destruct m as [p |]; simpl; [| discriminate].
    intros H. injection H as <- <-. now left.
  - simpl. intros H. injection H as <- <-. right.
    now rewrite queue_eta.
Qed.

Lemma read_returned (q q' : byte_buffer_queue) (b : unique_byte_buffer_t) :
  read q = Returned (b, q') ->
  exists p rest,
    resident q = Some p :: rest /\
    b = Some p /\
    q' = {| queue := with_slots rest (queue q);
            unread_bytes :=
              UInt32.sub (unread_bytes q) (Z.min (N_bytes p) (unread_bytes q)) |}.
Proof.
  unfold read, pop_blocking, resident.
  destruct (circ_buffer (queue q)) as [| [p |] rest]; simpl; try discriminate.
  intros H. injection H as <- <-. now exists p, rest.
Qed.

Lemma try_read_returned (m b : unique_byte_buffer_t) (q q' : byte_buffer_queue)
      (ok : bool) :
  try_read m q = Returned (ok, b, q') ->
  (ok = true /\ read q = Returned (b, q')) \/
  (ok = false /\ resident q = [] /\ b = m /\ q' = q).
Proof.
  unfold try_read, read, try_pop, pop_blocking, resident.
  destruct (circ_buffer (queue q)) as [| [p |] rest]; simpl; try discriminate.
  - intros H. injection H as <- <- <-. right. now rewrite queue_eta.
  - intros H. injection H as <- <- <-. now left.
Qed.

Lemma size_tail_bytes_keeps (q : byte_buffer_queue) :
  snd (size_tail_bytes q) = q.
Proof.
  unfold size_tail_bytes, try_call_on_front.
  destruct (circ_buffer (queue q)); simpl; apply queue_eta.
Qed.

(** ** The worked scenario *)

(** Capacity 2: push A (10 bytes), push B (5 bytes), a rejected [try_write]
    of C (3 bytes), a [read] that returns A, then [reset]. *)
Example scenario :
  let A := pdu 10 in
  let B := pdu 5 in
  let C := pdu 3 in
  let q1 := queue_of [A] 2 10 in
  let q2 := queue_of [A; B] 2 15 in
  let q4 := queue_of [B] 2 5 in
  write A (make 2) = Returned q1 /\ size q1 = 1 /\ size_bytes q1 = 10 /\
  write B q1 = Returned q2 /\ size q2 = 2 /\ size_bytes q2 = 15 /\
  try_write C q2 = Returned (Error C, q2) /\
  read q2 = Returned (A, q4) /\ size q4 = 1 /\ size_bytes q4 = 5 /\
  size_bytes (reset q4) = 0 /\ size (reset q4) = 1.
Proof.
  repeat split; vm_compute; reflexivity.
Qed.

(** ** The pop-side subtraction *)

(** C2. For every queue state whose fields hold [uint32_t] values, also a
    drifted one where the counter is smaller than the head buffer, a
    successful pop ([read], or [try_read] returning [true]) lowers
    [unread_bytes] by [min (length buffer) unread_bytes]: the result lies
    between 0 and the old counter, is 0 when the counter did not exceed the
    buffer's length, and no wrap-around occurs. *)
Theorem pop_decrement_saturates
        (q q' : byte_buffer_queue) (b m : unique_byte_buffer_t) :
  wf_queue q ->
  read q = Returned (b, q') \/ try_read m q = Returned (true, b, q') ->
  pop_callback b (size_bytes q) = Returned (size_bytes q') /\
  size_bytes q' = size_bytes q - Z.min (buffer_length b) (size_bytes q) /\
  0 <= size_bytes q' <= size_bytes q /\
  (size_bytes q <= buffer_length b -> size_bytes q' = 0) /\
  (buffer_length b <= size_bytes q ->
   size_bytes q' = size_bytes q - buffer_length b).
Proof.
  intros [Hu Hs] Hpop.
  assert (Hread : read q = Returned (b, q')).
  { destruct Hpop as [H | H]; [exact H |].
    apply try_read_returned in H.
    destruct H as [[_ H] | [H _]]; [exact H | discriminate]. }
  apply read_returned in Hread.
  destruct Hread as (p & rest & Hres & -> & ->).
  rewrite Hres in Hs. inversion Hs as [| x l Hp _]; subst.
  cbn [wf_buffer] in Hp. unfold UInt32.in_range in Hu, Hp.
  unfold size_bytes; cbn [unread_bytes buffer_length pop_callback].
  split; [reflexivity |].
  rewrite clamped_sub_exact by (unfold UInt32.in_range; lia).
  lia.
Qed.

Lemma pop_decrement_saturates_witness :
  let q := queue_of [pdu 10; pdu 7] 128 4 in
  let q' := queue_of [pdu 7] 128 0 in
  pop_callback (pdu 10) (size_bytes q) = Returned (size_bytes q') /\
  size_bytes q' = size_bytes q - Z.min (buffer_length (pdu 10)) (size_bytes q) /\
  0 <= size_bytes q' <= size_bytes q /\
  (size_bytes q <= buffer_length (pdu 10) -> size_bytes q' = 0) /\
  (buffer_length (pdu 10) <= size_bytes q ->
   size_bytes q' = size_bytes q - buffer_length (pdu 10)).
Proof.
  intros q q'.
  apply (@pop_decrement_saturates q q' (pdu 10) None).
  - split.
    + vm_compute. split; [discriminate | reflexivity].
    + repeat constructor; vm_compute; discriminate.
  - left. reflexivity.
Defined.

(** ** [reset] *)

(** C6. For every queue state, [reset] sets [unread_bytes] to 0 and leaves
    the slot store, its occupancy, its capacity and the buffers themselves
    as they were: afterwards [size_bytes] is 0 and [size] is unchanged. *)
Theorem reset_zeroes_counter_only (q : byte_buffer_queue) :
  size_bytes (reset q) = 0 /\
  queue (reset q) = queue q /\
  resident (reset q) = resident q /\
  capacity (queue (reset q)) = capacity (queue q) /\
  size (reset q) = size q /\
  is_empty (reset q) = is_empty q /\
  is_full (reset q) = is_full q.
Proof.
  unfold reset, size_bytes, resident, size, is_empty, is_full.
  cbn [queue unread_bytes]. repeat split.
Qed.

(** ** Rejected pushes *)

(** On the slot store, whatever the hooks are: a [try_push] that hands the
    element back has run no hook and has left the store as it was. *)
Lemma try_push_rejected_runs_no_hook
      (T A : Type) (push_func : T -> A -> outcome A)
      (t e : T) (s s' : dyn_blocking_queue T) (a a' : A) :
  try_push push_func t s a = Returned (Error e, s', a') ->
  e = t /\ s' = s /\ a' = a.
Proof.
  unfold try_push. destruct (has_free_slot s).
  - destruct (push_func t a); simpl; discriminate.
  - intros H. injection H as <- <- <-. repeat split.
Qed.

(** C5. If [try_write b] returns a rejection, the store had no free slot,
    the queue is in the state it had before the call ([size_bytes] and
    [size] included), the buffer handed back is [b] itself with its length
    and content, and the push hook has not run: whatever hook the store is
    given, the state it acts on is untouched. *)
Theorem try_write_rejected_unchanged
        (b e : unique_byte_buffer_t) (q q' : byte_buffer_queue) :
  try_write b q = Returned (Error e, q') ->
  has_free_slot (queue q) = false /\
  q' = q /\
  size_bytes q' = size_bytes q /\
  size q' = size q /\
  e = b /\
  buffer_length e = buffer_length b /\
  (forall (A : Type) (hook : unique_byte_buffer_t -> A -> outcome A) (a : A),
      try_push hook b (queue q) a = Returned (Error b, queue q, a)).
Proof.
  intros H. apply try_write_returned in H.
  destruct H as [[H _] | (H & Hfull & ->)]; [discriminate |].
  injection H as ->. repeat split; try assumption.
  intros A hook a. unfold try_push. now rewrite Hfull.
Qed.

Lemma try_write_rejected_unchanged_witness :
  let q := queue_of [pdu 10; pdu 5] 2 15 in
  has_free_slot (queue q) = false /\
  q = q /\
  size_bytes q = size_bytes q /\
  size q = size q /\
  pdu 3 = pdu 3 /\
  buffer_length (pdu 3) = buffer_length (pdu 3) /\
  (forall (A : Type) (hook : unique_byte_buffer_t -> A -> outcome A) (a : A),
      try_push hook (pdu 3) (queue q) a = Returned (Error (pdu 3), queue q, a)).
Proof.
  intros q.
  apply (@try_write_rejected_unchanged (pdu 3) (pdu 3) q q).
  reflexivity.
Defined.

(** ** The push-side addition *)

(** On the slot store, whatever the hooks are: a [push_blocking] that
    returns has appended the element and carries the result of one call of
    the push hook on the state before the push. *)
Lemma push_blocking_runs_hook_once
      (T A : Type) (push_func : T -> A -> outcome A)
      (t : T) (s s' : dyn_blocking_queue T) (a a' : A) :
  push_blocking push_func t s a = Returned (s', a') ->
  push_func t a = Returned a' /\ s' = insert_tail t s.
Proof.
  unfold push_blocking. destruct (has_free_slot s); [| discriminate].
  destruct (push_func t a) as [x | |]; simpl; try discriminate.
  intros H. injection H as <- <-. split; reflexivity.
Qed.

(** C8, as it holds on the code.  When [write buffer] returns, the buffer
    sits at the tail of the store and [size_bytes] is the old value to which
    the buffer's length has been added once, modulo [2^32], by the
    [uint32_t] addition of [push_callback]: the new counter is the result of
    a single call of the hook on the old counter, and a hook that counts its
    calls is one further when the store's push returns.  Whenever the sum
    fits in 32 bits the counter has gone up by exactly the buffer's
    length. *)
Theorem write_adds_length_once
        (buffer : unique_byte_buffer_t) (q q' : byte_buffer_queue) :
  write buffer q = Returned q' ->
  size_bytes q' = UInt32.add (size_bytes q) (buffer_length buffer) /\
  push_callback buffer (size_bytes q) = Returned (size_bytes q') /\
  resident q' = resident q ++ [buffer] /\
  (UInt32.in_range (size_bytes q + buffer_length buffer) ->
   size_bytes q' = size_bytes q + buffer_length buffer) /\
  (forall (calls : nat) (r : dyn_blocking_queue unique_byte_buffer_t * nat),
      push_blocking (fun _ n => Returned (S n)) buffer (queue q) calls
      = Returned r ->
      snd r = S calls).
Proof.
  intros H. apply write_returned in H.
  destruct H as (p & -> & Hfree & ->).
  unfold size_bytes, resident. cbn [unread_bytes queue buffer_length].
  repeat split.
  - intros Hfit. unfold UInt32.add. now apply wrap_small.
  - intros calls [s' n'] Hpush.
    apply push_blocking_runs_hook_once in Hpush.
    destruct Hpush as [Hn _]. now injection Hn as <-.
Qed.

Lemma write_adds_length_once_witness :
  let q := queue_of [pdu 10] 2 10 in
  let q' := queue_of [pdu 10; pdu 5] 2 15 in
  size_bytes q' = UInt32.add (size_bytes q) (buffer_length (pdu 5)) /\
  push_callback (pdu 5) (size_bytes q) = Returned (size_bytes q') /\
  resident q' = resident q ++ [pdu 5] /\
  (UInt32.in_range (size_bytes q + buffer_length (pdu 5)) ->
   size_bytes q' = size_bytes q + buffer_length (pdu 5)) /\
  (forall (calls : nat) (r : dyn_blocking_queue unique_byte_buffer_t * nat),
      push_blocking (fun _ n => Returned (S n)) (pdu 5) (queue q) calls
      = Returned r ->
      snd r = S calls).
Proof.
  intros q q'.
  apply (@write_adds_length_once (pdu 5) q q').
  reflexivity.
Defined.

(** C8 as stated fails when the addition wraps: on a fresh queue of capacity
    128 a first [write] of a [2^31]-byte buffer returns with [size_bytes] at
    [2^31], and a second one returns with [size_bytes] at 0, below the old
    value instead of [2^31] above it. *)
Lemma write_increment_fails_on_wrap :
  let big := pdu (2 ^ 31) in
  let q1 := queue_of [big] 128 (2 ^ 31) in
  let q2 := queue_of [big; big] 128 0 in
  write big (make 128) = Returned q1 /\
  write big q1 = Returned q2 /\
  size_bytes q2 = 0 /\
  size_bytes q2 <> size_bytes q1 + buffer_length big /\
  size_bytes q2 < size_bytes q1.
Proof.
  repeat split; vm_compute; discriminate.
Qed.

(** C9. The counter is a 32-bit unsigned integer and [push_callback] adds
    modulo [2^32] without clamping: after a [write] that returns, the
    counter is [(old + length) mod 2^32], still a [uint32_t]; when the sum
    reaches [2^32] it wraps to [old + length - 2^32], below the old value;
    and whenever the lengths of the resident buffers total [2^32] or more,
    [size_bytes] reports less than that total. *)
Theorem push_addition_wraps
        (p : byte_buffer_t) (q q' : byte_buffer_queue) :
  wf_queue q ->
  UInt32.in_range (N_bytes p) ->
  write (Some p) q = Returned q' ->
  push_callback (Some p) (size_bytes q)
  = Returned ((size_bytes q + N_bytes p) mod 2 ^ 32) /\
  size_bytes q' = (size_bytes q + N_bytes p) mod 2 ^ 32 /\
  UInt32.in_range (size_bytes q') /\
  (2 ^ 32 <= size_bytes q + N_bytes p ->
   size_bytes q' = size_bytes q + N_bytes p - 2 ^ 32 /\
   size_bytes q' < size_bytes q) /\
  (2 ^ 32 <= resident_bytes q' -> size_bytes q' < resident_bytes q').
Proof.
  intros [Hu _] Hp H. apply write_returned in H.
  destruct H as (p0 & Hp0 & _ & ->). injection Hp0 as <-.
  unfold size_bytes. cbn [unread_bytes].
  assert (Hr : UInt32.in_range (UInt32.add (unread_bytes q) (N_bytes p)))
    by apply wrap_in_range.
  repeat split; try apply Hr.
  - unfold UInt32.add. rewrite wrap_once_over; [reflexivity |].
    unfold UInt32.in_range, UInt32.modulus in *. lia.
  - unfold UInt32.add. rewrite wrap_once_over.
    + unfold UInt32.in_range, UInt32.modulus in *. lia.
    + unfold UInt32.in_range, UInt32.modulus in *. lia.
  - intros Hbig. unfold UInt32.in_range, UInt32.modulus in Hr. lia.
Qed.

Lemma push_addition_wraps_witness :
  let p := {| N_bytes := 2 ^ 31; msg := [] |} in
  let q := queue_of [Some p] 128 (2 ^ 31) in
  let q' := queue_of [Some p; Some p] 128 0 in
  push_callback (Some p) (size_bytes q)
  = Returned ((size_bytes q + N_bytes p) mod 2 ^ 32) /\
  size_bytes q' = (size_bytes q + N_bytes p) mod 2 ^ 32 /\
  UInt32.in_range (size_bytes q') /\
  (2 ^ 32 <= size_bytes q + N_bytes p ->
   size_bytes q' = size_bytes q + N_bytes p - 2 ^ 32 /\
   size_bytes q' < size_bytes q) /\
  (2 ^ 32 <= resident_bytes q' -> size_bytes q' < resident_bytes q').
Proof.
  intros p q q'.
  apply (@push_addition_wraps p q q').
  - split.
    + vm_compute. split; [discriminate | reflexivity].
    + repeat constructor; vm_compute; discriminate.
  - vm_compute. split; [discriminate | reflexivity].
  - vm_compute. reflexivity.
Defined.

(** ** The head-of-line peek *)

Lemma peeks_repeat (n : nat) (q : byte_buffer_queue) :
  peeks n q = (repeat (fst (size_tail_bytes q)) n, q).
Proof.
  induction n as [| k IH]; cbn [peeks repeat].
  - reflexivity.
  - rewrite size_tail_bytes_keeps, IH. reflexivity.
Qed.

Lemma size_tail_bytes_front (q : byte_buffer_queue) (p : byte_buffer_t)
      (rest : list unique_byte_buffer_t) :
  resident q = Some p :: rest ->
  UInt32.in_range (N_bytes p) ->
  fst (size_tail_bytes q) = N_bytes p.
Proof.
  unfold resident, size_tail_bytes, try_call_on_front. intros -> Hp.
  cbn [fst snd front_visitor]. unfold UInt32.add.
  now rewrite Z.add_0_l, wrap_small.
Qed.

(** C10. If the head-of-line slot holds a null buffer handle,
    [size_tail_bytes] returns 0 and leaves the queue as it was: the visitor
    checks the front element against [nullptr] before it reads [N_bytes], so
    the call has a value on every store content. *)
Theorem size_tail_bytes_null_front
        (q : byte_buffer_queue) (rest : list unique_byte_buffer_t) :
  resident q = None :: rest ->
  size_tail_bytes q = (0, q) /\
  front_visitor None 0 = 0.
Proof.
  unfold resident, size_tail_bytes, try_call_on_front. intros ->.
  cbn [fst snd front_visitor]. now rewrite queue_eta.
Qed.

Lemma size_tail_bytes_null_front_witness :
  let q := queue_of [None; pdu 5] 2 5 in
  size_tail_bytes q = (0, q) /\ front_visitor None 0 = 0.
Proof.
  intros q.
  apply (@size_tail_bytes_null_front q [pdu 5]).
  reflexivity.
Defined.

(** ** Steps of a sequential run *)

Lemma history_eta (h : history) :
  {| now := now h; pushed := pushed h; popped := popped h |} = h.
Proof. now destruct h. Qed.

Lemma exec_step (o : op) (h h' : history) :
  exec o h = Returned h' -> step h o h'.
Proof.
  destruct o as [m | m | | | c | |]; cbn [exec].
  - destruct (write m (now h)) as [q' | |] eqn:E; simpl; try discriminate.
    intros H. injection H as <-.
    apply write_returned in E. destruct E as (p & -> & Hfree & ->).
    apply step_push; [now left | exact Hfree].
  - destruct (try_write m (now h)) as [[e q'] | |] eqn:E; simpl; try discriminate.
    apply try_write_returned in E.
    destruct E as [[-> E] | (-> & Hfull & ->)]; intros H; injection H as <-.
    + apply write_returned in E. destruct E as (p & -> & Hfree & ->).
      apply step_push; [now right | exact Hfree].
    + rewrite history_eta. now apply step_reject.
  - destruct (read (now h)) as [[b q'] | |] eqn:E; simpl; try discriminate.
    intros H. injection H as <-.
    apply read_returned in E. destruct E as (p & rest & Hres & -> & ->).
    apply step_pop with (rest := rest); [now left | exact Hres].
  - destruct (try_read None (now h)) as [[[ok b] q'] | |] eqn:E; simpl;
      try discriminate.
    apply try_read_returned in E.
    destruct E as [[-> E] | (-> & Hres & -> & ->)]; intros H; injection H as <-.
    + apply read_returned in E. destruct E as (p & rest & Hres & -> & ->).
      apply step_pop with (rest := rest); [now right | exact Hres].
    + rewrite history_eta. now apply step_starve.
  - intros H. injection H as <-. apply step_resize.
  - intros H. injection H as <-. apply step_reset.
  - intros H. injection H as <-.
    change (step h SizeTailBytes
                 {| now := snd (size_tail_bytes (now h));
                    pushed := pushed h; popped := popped h |}).
    rewrite size_tail_bytes_keeps, history_eta. apply step_peek.
Qed.

(** An invariant of the steps holds at the end of every run that returns. *)
Lemma run_invariant (P : history -> Prop) (ops : list op) :
  forall h h',
    (forall o a a', In o ops -> step a o a' -> P a -> P a') ->
    P h ->
    run ops h = Returned h' ->
    P h'.
Proof.
  induction ops as [| o rest IH]; intros h h' Hstep Hh; cbn [run].
  - intros H. now injection H as <-.
  - destruct (exec o h) as [h1 | |] eqn:E; simpl; try discriminate.
    apply IH.
    + intros o' a a' Hin. apply Hstep. now right.
    + apply Hstep with (o := o) (a := h); [now left | now apply exec_step | exact Hh].
Qed.

(** ** First in, first out *)

Lemma step_fifo (o : op) (h h' : history) :
  step h o h' -> fifo h -> fifo h'.
Proof.
  unfold fifo.
  intros Hstep Hf.
  destruct Hstep as [o p _ _ | m _ | o p rest _ Hres | _ | c | |];
    cbn [now pushed popped]; unfold resident in *;
    cbn [queue insert_tail with_slots circ_buffer resize reset set_size];
    try assumption.
  - rewrite Hf. now rewrite app_assoc.
  - rewrite Hf, Hres, <- app_assoc. reflexivity.
Qed.

(** C3. For every sequence of calls on one queue instance that runs to its
    end, the buffers taken in by the successful pushes are, in order, the
    buffers given out by the successful pops followed by the buffers still
    resident: the [n]th successful pop returned the buffer of the [n]th
    successful push, nothing twice and nothing dropped. *)
Theorem fifo_order (ops : list op) (c : Z) (h : history) :
  run ops (start c) = Returned h ->
  pushed h = popped h ++ resident (now h) /\
  (forall n b, nth_error (popped h) n = Some b ->
               nth_error (pushed h) n = Some b) /\
  (length (popped h) <= length (pushed h))%nat.
Proof.
  intros Hrun.
  assert (Hf : fifo h).
  { apply run_invariant with (P := fifo) (ops := ops) (h := start c);
      [| reflexivity | exact Hrun].
    intros o a a' _. apply step_fifo. }
  unfold fifo in Hf. split; [exact Hf | split].
  - intros n b Hn. rewrite Hf, nth_error_app1; [exact Hn |].
    apply nth_error_Some. congruence.
  - rewrite Hf, length_app. lia.
Qed.

Lemma fifo_order_witness :
  let ops := [Write (pdu 10); TryWrite (pdu 5); TryWrite (pdu 3); Read;
              Write (pdu 7); Resize 1; TryRead; Reset; Read; TryRead] in
  exists h,
    run ops (start 2) = Returned h /\
    popped h = [pdu 10; pdu 5; pdu 7] /\
    pushed h = popped h ++ resident (now h) /\
    (forall n b, nth_error (popped h) n = Some b ->
                 nth_error (pushed h) n = Some b).
Proof.
  intros ops.
  exists {| now := queue_of [] 1 0;
            pushed := [pdu 10; pdu 5; pdu 7];
            popped := [pdu 10; pdu 5; pdu 7] |}.
  assert (Hrun : run ops (start 2)
                 = Returned {| now := queue_of [] 1 0;
                               pushed := [pdu 10; pdu 5; pdu 7];
                               popped := [pdu 10; pdu 5; pdu 7] |})
    by reflexivity.
  split; [exact Hrun | split; [reflexivity |]].
  destruct (@fifo_order ops 2 _ Hrun) as (Hf & Hn & _).
  split; [exact Hf | exact Hn].
Defined.

(** ** Conservation of the byte count *)

Lemma step_accounted (o : op) (h h' : history) :
  step h o h' ->
  wf_op o ->
  is_reset o = false ->
  accounted h ->
  resident_bytes (now h') < UInt32.modulus ->
  accounted h'.
Proof.
  unfold accounted, resident_bytes.
  intros Hstep Hwf Hnr [Hacc Hs].
  destruct Hstep as [o p Ho _ | m _ | o p rest _ Hres | _ | c | |];
    cbn [now]; unfold resident in *;
    cbn [queue unread_bytes insert_tail with_slots circ_buffer resize set_size];
    try (intros _; split; assumption); try discriminate.
  - assert (Hp : wf_buffer (Some p)) by (destruct Ho as [-> | ->]; exact Hwf).
    rewrite sum_lengths_app, sum_lengths_cons.
    cbn [buffer_length sum_lengths fold_right]. rewrite Z.add_0_r.
    intros Hfit. split.
    + rewrite Hacc. unfold UInt32.add. rewrite wrap_small; [reflexivity |].
      apply sum_lengths_nonneg in Hs. apply buffer_length_nonneg in Hp.
      cbn [buffer_length] in Hp. unfold UInt32.in_range.
      unfold unique_byte_buffer_t in *. lia.
    + apply Forall_app. split; [exact Hs | now constructor].
  - rewrite Hres in Hs, Hacc. rewrite sum_lengths_cons in Hacc.
    cbn [buffer_length] in Hacc.
    inversion Hs as [| x l Hp Hrest]; subst.
    apply buffer_length_nonneg in Hp. cbn [buffer_length] in Hp.
    pose proof (sum_lengths_nonneg Hrest) as Hnn.
    intros Hfit. split; [| exact Hrest].
    rewrite Hacc. rewrite Z.min_l by lia.
    unfold UInt32.sub. rewrite wrap_small; [lia |].
    unfold UInt32.in_range. lia.
Qed.

Lemma run_accounted (ops : list op) :
  forall h h',
    Forall wf_op ops ->
    existsb is_reset ops = false ->
    fits ops h = true ->
    accounted h ->
    run ops h = Returned h' ->
    accounted h'.
Proof.
  induction ops as [| o rest IH]; intros h h' Hwf Hnr Hfits Hacc; cbn [run].
  - intros H. now injection H as <-.
  - cbn [fits] in Hfits. cbn [existsb] in Hnr.
    apply orb_false_iff in Hnr. destruct Hnr as [Ho Hrest].
    inversion Hwf as [| x l Hwo Hwrest]; subst.
    destruct (exec o h) as [h1 | |] eqn:E; simpl; try discriminate.
    apply andb_true_iff in Hfits. destruct Hfits as [Hfit Hfits].
    apply Z.ltb_lt in Hfit.
    apply IH; try assumption.
    apply step_accounted with (o := o) (h := h); try assumption.
    now apply exec_step.
Qed.

(** C1, as it holds on the code.  For every sequence of writes and reads
    (blocking or not, with resizes and peeks in between, without [reset])
    that runs to its end from a fresh queue, with buffers of lengths
    [l_1..l_N] taken in and buffers of lengths [m_1..m_M] given out:
    provided the lengths of the resident buffers total less than [2^32]
    after every call, [size_bytes] equals the sum of the [l_i] minus the sum
    of the [m_j], clamped at 0, which is the sum of the lengths of the
    buffers resident in the store. *)
Theorem conservation_below_wrap (ops : list op) (c : Z) (h : history) :
  Forall wf_op ops ->
  existsb is_reset ops = false ->
  fits ops (start c) = true ->
  run ops (start c) = Returned h ->
  size_bytes (now h)
  = Z.max 0 (sum_lengths (pushed h) - sum_lengths (popped h)) /\
  size_bytes (now h) = resident_bytes (now h) /\
  (length (popped h) <= length (pushed h))%nat.
Proof.
  intros Hwf Hnr Hfits Hrun.
  assert (Hacc : accounted h).
  { apply run_accounted with (ops := ops) (h := start c); try assumption.
    split; [reflexivity | constructor]. }
  assert (Hf : fifo h).
  { apply run_invariant with (P := fifo) (ops := ops) (h := start c);
      [| reflexivity | exact Hrun].
    intros o a a' _. apply step_fifo. }
  destruct Hacc as [Hacc Hs]. unfold fifo in Hf.
  pose proof (sum_lengths_nonneg Hs) as Hnn.
  unfold size_bytes, resident_bytes in *.
  rewrite Hf, sum_lengths_app, length_app. repeat split; lia.
Qed.

Lemma conservation_below_wrap_witness :
  let ops := [Write (pdu 10); TryWrite (pdu 5); TryWrite (pdu 3); Read;
              SizeTailBytes; Write (pdu 7); TryRead] in
  exists h,
    run ops (start 2) = Returned h /\
    size_bytes (now h) = 7 /\
    size_bytes (now h)
    = Z.max 0 (sum_lengths (pushed h) - sum_lengths (popped h)) /\
    size_bytes (now h) = resident_bytes (now h).
Proof.
  intros ops.
  pose (h := {| now := queue_of [pdu 7] 2 7;
                pushed := [pdu 10; pdu 5; pdu 7];
                popped := [pdu 10; pdu 5] |}).
  assert (Hrun : run ops (start 2) = Returned h) by reflexivity.
  assert (Hwf : Forall wf_op ops)
    by (repeat constructor; vm_compute; discriminate).
  assert (Hnr : existsb is_reset ops = false) by reflexivity.
  assert (Hfits : fits ops (start 2) = true) by reflexivity.
  exists h.
  destruct (@conservation_below_wrap ops 2 h Hwf Hnr Hfits Hrun) as (H1 & H2 & _).
  split; [exact Hrun | split; [reflexivity | split; [exact H1 | exact H2]]].
Defined.

(** C1 as stated fails once the pushes wrap the counter: two resident
    buffers of [2^31] bytes each leave [size_bytes] at 0, while the pushed
    lengths minus the popped lengths, and the resident lengths, total
    [2^32]. *)
Lemma conservation_fails_on_wrap :
  let big := pdu (2 ^ 31) in
  let ops := [Write big; Write big] in
  exists h,
    Forall wf_op ops /\
    existsb is_reset ops = false /\
    run ops (start 128) = Returned h /\
    size_bytes (now h) = 0 /\
    sum_lengths (pushed h) - sum_lengths (popped h) = 2 ^ 32 /\
    resident_bytes (now h) = 2 ^ 32 /\
    size_bytes (now h)
    <> Z.max 0 (sum_lengths (pushed h) - sum_lengths (popped h)) /\
    size_bytes (now h) <> resident_bytes (now h).
Proof.
  intros big ops.
  exists {| now := queue_of [big; big] 128 0;
            pushed := [big; big]; popped := [] |}.
  split; [repeat constructor; vm_compute; discriminate |].
  repeat split; try reflexivity; vm_compute; discriminate.
Qed.

(** ** The capacity bound *)

Lemma step_within_bound (o : op) (h h' : history) :
  step h o h' ->
  resize_keeps_room o h = true ->
  within_bound h ->
  within_bound h'.
Proof.
  unfold within_bound, occupied_count.
  intros Hstep Hroom Hb.
  destruct Hstep as [o p _ Hfree | m _ | o p rest _ Hres | _ | c | |];
    cbn [now queue insert_tail with_slots circ_buffer capacity resize reset
         set_size];
    try assumption.
  - unfold has_free_slot, occupied_count in Hfree. apply Z.ltb_lt in Hfree.
    rewrite length_app. cbn [length]. unfold unique_byte_buffer_t in *. lia.
  - unfold resident in Hres. rewrite Hres in Hb. cbn [length] in Hb.
    unfold unique_byte_buffer_t in *. lia.
  - cbn [resize_keeps_room] in Hroom. unfold occupied_count in Hroom.
    now apply Z.leb_le in Hroom.
Qed.

Lemma run_within_bound (ops : list op) :
  forall h h',
    never_shrinks_below ops h = true ->
    within_bound h ->
    run ops h = Returned h' ->
    within_bound h'.
Proof.
  induction ops as [| o rest IH]; intros h h' Hns Hb; cbn [run].
  - intros H. now injection H as <-.
  - cbn [never_shrinks_below] in Hns.
    apply andb_true_iff in Hns. destruct Hns as [Hroom Hns].
    destruct (exec o h) as [h1 | |] eqn:E; simpl; try discriminate.
    apply IH; [exact Hns |].
    apply step_within_bound with (o := o) (h := h); try assumption.
    now apply exec_step.
Qed.

(** A push that returns leaves the occupancy within the bound, whatever the
    state before it. *)
Lemma write_within_bound (m : unique_byte_buffer_t) (q q' : byte_buffer_queue) :
  write m q = Returned q' ->
  occupied_count (queue q') <= capacity (queue q').
Proof.
  intros H. apply write_returned in H. destruct H as (p & -> & Hfree & ->).
  unfold has_free_slot, occupied_count in *. apply Z.ltb_lt in Hfree.
  cbn [queue insert_tail circ_buffer capacity]. rewrite length_app.
  cbn [length]. unfold unique_byte_buffer_t in *. lia.
Qed.

Lemma resize_closes_admission (c : Z) (m : unique_byte_buffer_t)
      (q : byte_buffer_queue) :
  c <= occupied_count (queue q) ->
  try_write m (resize c q) = Returned (Error m, resize c q) /\
  write m (resize c q) = Suspended.
Proof.
  intros Hc.
  assert (Hfull : has_free_slot (queue (resize c q)) = false).
  { unfold has_free_slot, occupied_count in *.
    cbn [resize queue set_size circ_buffer capacity]. apply Z.ltb_ge. exact Hc. }
  unfold try_write, write, try_push, push_blocking. rewrite Hfull.
  split; reflexivity.
Qed.

Lemma resize_opens_admission (c : Z) (p : byte_buffer_t) (q : byte_buffer_queue) :
  occupied_count (queue q) < c ->
  exists q',
    try_write (Some p) (resize c q) = Returned (Success, q') /\
    write (Some p) (resize c q) = Returned q' /\
    resident q' = resident q ++ [Some p].
Proof.
  intros Hc.
  assert (Hfree : has_free_slot (queue (resize c q)) = true).
  { unfold has_free_slot, occupied_count in *.
    cbn [resize queue set_size circ_buffer capacity]. apply Z.ltb_lt. exact Hc. }
  unfold try_write, write, try_push, push_blocking. rewrite Hfree.
  eexists. repeat split.
Qed.

(** C4, as it holds on the model of the store.  For every sequence of calls
    from a fresh queue in which no resize sets the bound below the occupancy
    of the moment, the occupied count does not exceed the current capacity;
    a push that returns leaves the occupied count within the capacity from
    any state.  [resize c'] evicts nothing: the resident buffers and the
    byte counter stay as they were and the bound becomes [c']; while
    [c'] is not above the occupied count every [try_write] is rejected and
    every [write] suspends, and once the occupied count is below [c'] a
    push is admitted again. *)
Theorem capacity_bound_and_resize
        (ops : list op) (c : Z) (h : history)
        (q : byte_buffer_queue) (c' : Z) (m : unique_byte_buffer_t) :
  0 <= c ->
  never_shrinks_below ops (start c) = true ->
  run ops (start c) = Returned h ->
  occupied_count (queue (now h)) <= capacity (queue (now h)) /\
  (forall q', write m q = Returned q' ->
              occupied_count (queue q') <= capacity (queue q')) /\
  resident (resize c' q) = resident q /\
  size (resize c' q) = size q /\
  size_bytes (resize c' q) = size_bytes q /\
  capacity (queue (resize c' q)) = c' /\
  (c' <= occupied_count (queue q) ->
   try_write m (resize c' q) = Returned (Error m, resize c' q) /\
   write m (resize c' q) = Suspended) /\
  (occupied_count (queue q) < c' ->
   forall p, exists q',
       try_write (Some p) (resize c' q) = Returned (Success, q') /\
       write (Some p) (resize c' q) = Returned q' /\
       resident q' = resident q ++ [Some p]).
Proof.
  intros Hc Hns Hrun.
  split.
  { apply (@run_within_bound ops (start c) h Hns); [| exact Hrun].
    unfold within_bound, occupied_count. cbn. exact Hc. }
  split; [intros q'; apply write_within_bound |].
  do 4 (split; [reflexivity |]).
  split.
  - apply resize_closes_admission.
  - intros Hlt p. now apply resize_opens_admission.
Qed.

Lemma capacity_bound_and_resize_witness :
  let ops := [Write (pdu 10); Write (pdu 5); TryWrite (pdu 3); Resize 3;
              Write (pdu 3); Read; Resize 2; TryRead] in
  let q := queue_of [pdu 10; pdu 5] 2 15 in
  exists h,
    run ops (start 2) = Returned h /\
    occupied_count (queue (now h)) <= capacity (queue (now h)) /\
    resident (resize 1 q) = resident q /\
    try_write (pdu 3) (resize 1 q) = Returned (Error (pdu 3), resize 1 q) /\
    write (pdu 3) (resize 1 q) = Suspended.
Proof.
  intros ops q.
  pose (h := {| now := queue_of [pdu 3] 2 3;
                pushed := [pdu 10; pdu 5; pdu 3];
                popped := [pdu 10; pdu 5] |}).
  assert (Hc : 0 <= 2) by discriminate.
  assert (Hns : never_shrinks_below ops (start 2) = true) by reflexivity.
  assert (Hrun : run ops (start 2) = Returned h) by reflexivity.
  exists h.
  destruct (@capacity_bound_and_resize ops 2 h q 1 (pdu 3) Hc Hns Hrun)
    as (Hb & _ & Hres & _ & _ & _ & Hclosed & _).
  assert (Hocc : 1 <= occupied_count (queue q)) by discriminate.
  destruct (Hclosed Hocc) as [Htry Hwrite].
  split; [exact Hrun | split; [exact Hb | split; [exact Hres |]]].
  split; [exact Htry | exact Hwrite].
Defined.

(** C4 as stated fails after a resize below the occupancy: with two buffers
    resident under capacity 2, [resize 1] evicts nothing, so the occupied
    count 2 exceeds the current capacity 1. *)
Lemma capacity_exceeded_after_shrink :
  let ops := [Write (pdu 10); Write (pdu 5); Resize 1] in
  exists h,
    run ops (start 2) = Returned h /\
    resident (now h) = [pdu 10; pdu 5] /\
    capacity (queue (now h)) = 1 /\
    occupied_count (queue (now h)) = 2 /\
    ~ occupied_count (queue (now h)) <= capacity (queue (now h)).
Proof.
  intros ops.
  exists {| now := queue_of [pdu 10; pdu 5] 1 15;
            pushed := [pdu 10; pdu 5]; popped := [] |}.
  repeat split. vm_compute. intros H. now apply H.
Qed.

(** ** The peek between pops *)

Lemma size_tail_bytes_of_head (q1 q2 : byte_buffer_queue) :
  hd_error (resident q1) = hd_error (resident q2) ->
  fst (size_tail_bytes q1) = fst (size_tail_bytes q2).
Proof.
  unfold resident, size_tail_bytes, try_call_on_front.
  destruct (circ_buffer (queue q1)) as [| b1 l1];
    destruct (circ_buffer (queue q2)) as [| b2 l2];
    cbn [hd_error fst snd]; intros H; try discriminate; try reflexivity.
  now injection H as ->.
Qed.

Lemma hd_error_app (T : Type) (b : T) (l l' : list T) :
  hd_error l = Some b -> hd_error (l ++ l') = Some b.
Proof.
  destruct l as [| x l]; cbn [hd_error app]; [discriminate | intros H; exact H].
Qed.

Lemma step_keeps_head (b : unique_byte_buffer_t) (o : op) (h h' : history) :
  step h o h' ->
  is_pop o = false ->
  hd_error (resident (now h)) = Some b ->
  hd_error (resident (now h')) = Some b.
Proof.
  intros Hstep Hnp.
  destruct Hstep as [o p _ _ | m _ | o p rest Ho _ | _ | c | |];
    cbn [now]; unfold resident;
    cbn [queue insert_tail with_slots circ_buffer resize reset set_size];
    try (intros H; exact H).
  - apply hd_error_app.
  - destruct Ho as [-> | ->]; discriminate.
Qed.

Lemma run_keeps_head (b : unique_byte_buffer_t) (ops : list op)
      (h h' : history) :
  existsb is_pop ops = false ->
  hd_error (resident (now h)) = Some b ->
  run ops h = Returned h' ->
  hd_error (resident (now h')) = Some b.
Proof.
  intros Hnp Hhd Hrun.
  apply run_invariant
    with (P := fun x => hd_error (resident (now x)) = Some b)
         (ops := ops) (h := h); [| exact Hhd | exact Hrun].
  intros o a a' Hin Hstep. apply step_keeps_head with (o := o); [exact Hstep |].
  destruct (is_pop o) eqn:E; [| reflexivity].
  assert (Hex : existsb is_pop ops = true)
    by (apply existsb_exists; exists o; split; assumption).
  congruence.
Qed.

(** C7. [size_tail_bytes] only peeks.  On an empty queue it returns 0; on a
    queue whose head is a buffer it returns that buffer's length; the queue
    after the call is the queue before it; any number of calls in a row
    return the same value, and a [read] that follows returns the head
    buffer, whose length is that value.  More generally, on a non-empty
    queue, after any sequence of calls without a pop (writes, non-blocking
    writes, resizes, resets and further peeks) that runs to its end, the
    head of the store is still the same buffer, [size_tail_bytes] returns
    the same value as before, and a [read] that follows returns the head
    buffer, whose length is that value. *)
Theorem size_tail_bytes_is_peek
        (q : byte_buffer_queue) (n : nat) (ops : list op) (h' : history) :
  wf_queue q ->
  (resident q = [] -> fst (size_tail_bytes q) = 0) /\
  (forall p rest, resident q = Some p :: rest ->
                  fst (size_tail_bytes q) = N_bytes p) /\
  snd (size_tail_bytes q) = q /\
  peeks n q = (repeat (fst (size_tail_bytes q)) n, q) /\
  (forall p rest,
      resident q = Some p :: rest ->
      exists q', read (snd (peeks n q)) = Returned (Some p, q') /\
                 resident q' = rest /\
                 N_bytes p = fst (size_tail_bytes q)) /\
  (forall b q',
      read (snd (peeks n q)) = Returned (b, q') ->
      buffer_length b = fst (size_tail_bytes q)) /\
  (resident q <> [] ->
   existsb is_pop ops = false ->
   run ops (observe q) = Returned h' ->
   hd_error (resident (now h')) = hd_error (resident q) /\
   fst (size_tail_bytes (now h')) = fst (size_tail_bytes q) /\
   (forall p rest,
       resident q = Some p :: rest ->
       exists q'', read (now h') = Returned (Some p, q'') /\
                   N_bytes p = fst (size_tail_bytes q)) /\
   (forall b q'',
       read (now h') = Returned (b, q'') ->
       buffer_length b = fst (size_tail_bytes q))).
Proof.
  intros [_ Hs].
  assert (Hfront : forall p rest, resident q = Some p :: rest ->
                                  fst (size_tail_bytes q) = N_bytes p).
  { intros p rest Hres. apply size_tail_bytes_front with (rest := rest); [exact Hres |].
    rewrite Hres in Hs. now inversion Hs. }
  split; [| split; [| split; [| split; [| split; [| split]]]]].
  - unfold resident, size_tail_bytes, try_call_on_front. now intros ->.
  - exact Hfront.
  - apply size_tail_bytes_keeps.
  - apply peeks_repeat.
  - intros p rest Hres. rewrite peeks_repeat. cbn [snd].
    exists {| queue := with_slots rest (queue q);
              unread_bytes :=
                UInt32.sub (unread_bytes q) (Z.min (N_bytes p) (unread_bytes q)) |}.
    repeat split.
    + unfold read, pop_blocking. unfold resident in Hres. now rewrite Hres.
    + symmetry. now apply Hfront with (rest := rest).
  - intros b q'. rewrite peeks_repeat. cbn [snd]. intros Hread.
    apply read_returned in Hread. destruct Hread as (p & rest & Hres & -> & _).
    symmetry. now apply Hfront with (rest := rest).
  - intros Hne Hnp Hrun.
    destruct (resident q) as [| b0 rest0] eqn:Hres; [congruence |].
    assert (Hhd : hd_error (resident (now h')) = Some b0).
    { apply run_keeps_head with (ops := ops) (h := observe q);
        [exact Hnp | | exact Hrun].
      cbn [observe now]. now rewrite Hres. }
    assert (Hsame : fst (size_tail_bytes (now h')) = fst (size_tail_bytes q)).
    { apply size_tail_bytes_of_head. rewrite Hhd, Hres. reflexivity. }
    split; [exact Hhd | split; [exact Hsame | split]].
    + intros p rest Heq. injection Heq as -> ->.
      destruct (resident (now h')) as [| x l] eqn:Hres'; [discriminate |].
      cbn [hd_error] in Hhd. injection Hhd as ->.
      eexists. split.
      * unfold read, pop_blocking. unfold resident in Hres'. rewrite Hres'.
        cbn. reflexivity.
      * symmetry. now apply Hfront with (rest := rest).
    + intros b q'' Hread.
      apply read_returned in Hread. destruct Hread as (p & l & Hres' & -> & _).
      rewrite Hres' in Hhd. cbn [hd_error] in Hhd. injection Hhd as <-.
      symmetry. cbn [buffer_length]. now apply Hfront with (rest := rest0).
Qed.

Lemma size_tail_bytes_is_peek_witness :
  let q := queue_of [pdu 10; pdu 5] 4 15 in
  let ops := [SizeTailBytes; Write (pdu 3); Reset; TryWrite (pdu 8);
              Resize 1; TryWrite (pdu 2); SizeTailBytes] in
  let h' := {| now := queue_of [pdu 10; pdu 5; pdu 3; pdu 8] 1 8;
               pushed := [pdu 3; pdu 8]; popped := [] |} in
  peeks 3 q = ([10; 10; 10], q) /\
  (forall b q', read (snd (peeks 3 q)) = Returned (b, q') ->
                buffer_length b = 10) /\
  run ops (observe q) = Returned h' /\
  fst (size_tail_bytes (now h')) = 10 /\
  (forall b q'', read (now h') = Returned (b, q'') -> buffer_length b = 10).
Proof.
  intros q ops h'.
  assert (Hwf : wf_queue q).
  { split.
    - vm_compute. split; [discriminate | reflexivity].
    - repeat constructor; vm_compute; discriminate. }
  assert (Hne : resident q <> []) by discriminate.
  assert (Hnp : existsb is_pop ops = false) by reflexivity.
  assert (Hrun : run ops (observe q) = Returned h') by reflexivity.
  destruct (@size_tail_bytes_is_peek q 3 ops h' Hwf)
    as (_ & _ & _ & Hp & _ & Hr & Hgen).
  destruct (Hgen Hne Hnp Hrun) as (_ & Hsame & _ & Hread).
  split; [exact Hp | split; [exact Hr | split; [exact Hrun |]]].
  split; [exact Hsame | exact Hread].
Defined.

(** * Further properties of the queue *)

(** ** Push hook followed by pop hook *)

(** X1. On a [uint32_t] counter, [push_callback] followed by [pop_callback]
    for the same buffer gives the counter back exactly when the addition did
    not wrap; when it wrapped, the clamp of [pop_callback] leaves 0. *)
Theorem callbacks_round_trip (p : byte_buffer_t) (unread : Z) :
  UInt32.in_range unread ->
  UInt32.in_range (N_bytes p) ->
  exists w,
    push_callback (Some p) unread = Returned w /\
    (unread + N_bytes p < 2 ^ 32 -> pop_callback (Some p) w = Returned unread) /\
    (2 ^ 32 <= unread + N_bytes p ->
     pop_callback (Some p) w = Returned 0 /\ 0 < unread) /\
    (pop_callback (Some p) w = Returned unread <-> unread + N_bytes p < 2 ^ 32).
Proof.
  intros Hu Hn. unfold UInt32.in_range, UInt32.modulus in Hu, Hn.
  exists (UInt32.add unread (N_bytes p)).
  assert (Hfit : unread + N_bytes p < 2 ^ 32 ->
                 pop_callback (Some p) (UInt32.add unread (N_bytes p))
                 = Returned unread).
  { intros Hlt. cbn [pop_callback]. f_equal.
    unfold UInt32.add. rewrite wrap_small
      by (unfold UInt32.in_range, UInt32.modulus; lia).
    rewrite Z.min_l by lia. unfold UInt32.sub.
    rewrite wrap_small by (unfold UInt32.in_range, UInt32.modulus; lia). lia. }
  assert (Hover : 2 ^ 32 <= unread + N_bytes p ->
                  pop_callback (Some p) (UInt32.add unread (N_bytes p))
                  = Returned 0).
  { intros Hge. cbn [pop_callback]. f_equal.
    unfold UInt32.add. rewrite wrap_once_over
      by (unfold UInt32.modulus; lia).
    unfold UInt32.modulus. rewrite Z.min_r by lia.
    unfold UInt32.sub. rewrite Z.sub_diag. reflexivity. }
  split; [reflexivity |]. split; [exact Hfit |]. split.
  - intros Hge. split; [now apply Hover | lia].
  - split; [| exact Hfit].
    intros Hpop. destruct (Z_lt_ge_dec (unread + N_bytes p) (2 ^ 32)) as [Hlt | Hge];
      [exact Hlt |].
    rewrite Hover in Hpop by lia. injection Hpop as Hz. lia.
Qed.

Lemma callbacks_round_trip_witness :
  exists w,
    push_callback (pdu (2 ^ 31)) (2 ^ 31 + 7) = Returned w /\
    pop_callback (pdu (2 ^ 31)) w = Returned 0.
Proof.
  assert (Hu : UInt32.in_range (2 ^ 31 + 7))
    by (vm_compute; split; [discriminate | reflexivity]).
  assert (Hn : UInt32.in_range (N_bytes {| N_bytes := 2 ^ 31; msg := [] |}))
    by (vm_compute; split; [discriminate | reflexivity]).
  destruct (@callbacks_round_trip {| N_bytes := 2 ^ 31; msg := [] |}
                                  (2 ^ 31 + 7) Hu Hn)
    as (w & Hpush & _ & Hover & _).
  exists w. split; [exact Hpush |].
  apply Hover. vm_compute. discriminate.
Defined.

(** ** The counter never over-reports *)

Lemma wrap_le (z : Z) : 0 <= z -> UInt32.wrap z <= z.
Proof.
  intros Hz. unfold UInt32.wrap. apply Z.mod_le; [exact Hz | apply modulus_pos].
Qed.

Lemma step_not_over (o : op) (h h' : history) :
  step h o h' -> wf_op o -> not_over h -> not_over h'.
Proof.
  unfold not_over, resident_bytes.
  intros Hstep Hwf (Hr & Hle & Hs).
  pose proof (sum_lengths_nonneg Hs) as Hnn.
  destruct Hstep as [o p Ho _ | m _ | o p rest _ Hres | _ | c | |];
    cbn [now]; unfold resident in *;
    cbn [queue unread_bytes insert_tail with_slots circ_buffer resize reset
         set_size];
    try (split; [assumption | split; assumption]).
  - assert (Hp : wf_buffer (Some p)) by (destruct Ho as [-> | ->]; exact Hwf).
    pose proof (buffer_length_nonneg _ Hp) as Hpn. cbn [buffer_length] in Hpn.
    rewrite sum_lengths_app, sum_lengths_cons.
    cbn [buffer_length sum_lengths fold_right]. rewrite Z.add_0_r.
    unfold UInt32.in_range in Hr.
    pose proof (@wrap_le (unread_bytes (now h) + N_bytes p)) as Hw.
    unfold UInt32.add. unfold unique_byte_buffer_t in *.
    split; [apply wrap_in_range | split; [lia |]].
    apply Forall_app. split; [exact Hs | now constructor].
  - rewrite Hres in Hs, Hle, Hnn. rewrite sum_lengths_cons in Hle, Hnn.
    cbn [buffer_length] in Hle, Hnn.
    inversion Hs as [| x l Hp Hrest]; subst.
    apply buffer_length_nonneg in Hp. cbn [buffer_length] in Hp.
    pose proof (sum_lengths_nonneg Hrest) as Hrn.
    rewrite clamped_sub_exact by assumption.
    unfold UInt32.in_range in *. unfold unique_byte_buffer_t in *.
    repeat split; try lia. exact Hrest.
  - repeat split; try assumption; try reflexivity.
Qed.

Lemma run_not_over (ops : list op) (c : Z) (h : history) :
  Forall wf_op ops ->
  run ops (start c) = Returned h ->
  not_over h.
Proof.
  intros Hwf Hrun.
  apply run_invariant with (P := not_over) (ops := ops) (h := start c);
    [| | exact Hrun].
  - intros o a a' Hin Hstep. apply step_not_over with (o := o); [exact Hstep |].
    rewrite Forall_forall in Hwf. now apply Hwf.
  - repeat split; try reflexivity; try discriminate. constructor.
Qed.

Lemma is_empty_resident (q : byte_buffer_queue) :
  is_empty q = true <-> resident q = [].
Proof.
  unfold is_empty, empty, occupied_count, resident.
  rewrite Z.eqb_eq. destruct (circ_buffer (queue q)) as [| b l]; cbn [length].
  - split; reflexivity.
  - split; [lia | discriminate].
Qed.

(** X2. For every sequence of calls that runs to its end from a fresh
    queue, resets, resizes and wrapped additions included, [size_bytes] is a
    [uint32_t] value that does not exceed the sum of the lengths of the
    resident buffers: the counter may under-report, it never over-reports. *)
Theorem size_bytes_never_over_reports (ops : list op) (c : Z) (h : history) :
  Forall wf_op ops ->
  run ops (start c) = Returned h ->
  0 <= size_bytes (now h) <= resident_bytes (now h) /\
  size_bytes (now h) < 2 ^ 32.
Proof.
  intros Hwf Hrun.
  destruct (@run_not_over ops c h Hwf Hrun) as (Hr & Hle & _).
  unfold size_bytes, UInt32.in_range, UInt32.modulus in *. lia.
Qed.

Lemma size_bytes_never_over_reports_witness :
  let big := pdu (2 ^ 32 - 1) in
  let ops := [Write (pdu 10); Write big; Reset; Write (pdu 5); Read;
              TryWrite big; Resize 1; TryRead] in
  exists h,
    run ops (start 4) = Returned h /\
    size_bytes (now h) = 0 /\
    resident_bytes (now h) = 2 ^ 32 + 4 /\
    0 <= size_bytes (now h) <= resident_bytes (now h).
Proof.
  intros big ops.
  pose (h := {| now := queue_of [pdu 5; big] 1 0;
                pushed := [pdu 10; big; pdu 5; big];
                popped := [pdu 10; big] |}).
  assert (Hwf : Forall wf_op ops)
    by (repeat constructor; vm_compute; discriminate).
  assert (Hrun : run ops (start 4) = Returned h) by reflexivity.
  exists h.
  destruct (@size_bytes_never_over_reports ops 4 h Hwf Hrun) as [Hb _].
  split; [exact Hrun | split; [reflexivity | split; [reflexivity | exact Hb]]].
Defined.

(** X3. For every sequence of calls that runs to its end from a fresh
    queue, whenever the queue is empty afterwards ([is_empty]), [size_bytes]
    is 0 and [size_tail_bytes] is 0, also after resets and wrapped
    additions. *)
Theorem empty_queue_reports_zero (ops : list op) (c : Z) (h : history) :
  Forall wf_op ops ->
  run ops (start c) = Returned h ->
  is_empty (now h) = true ->
  size_bytes (now h) = 0 /\
  fst (size_tail_bytes (now h)) = 0 /\
  size (now h) = 0.
Proof.
  intros Hwf Hrun Hempty.
  destruct (@run_not_over ops c h Hwf Hrun) as (Hr & Hle & _).
  apply is_empty_resident in Hempty.
  unfold resident_bytes in Hle. rewrite Hempty in Hle. cbn in Hle.
  unfold UInt32.in_range in Hr. unfold resident in Hempty.
  unfold size_bytes, size_tail_bytes, try_call_on_front, size, occupied_count.
  rewrite Hempty. cbn [fst snd length]. repeat split; try reflexivity. lia.
Qed.

Lemma empty_queue_reports_zero_witness :
  let big := pdu (2 ^ 32 - 1) in
  let ops := [Write big; Write (pdu 9); Read; TryRead; TryRead] in
  exists h,
    run ops (start 4) = Returned h /\
    is_empty (now h) = true /\
    size_bytes (now h) = 0 /\
    fst (size_tail_bytes (now h)) = 0.
Proof.
  intros big ops.
  pose (h := {| now := queue_of [] 4 0;
                pushed := [big; pdu 9]; popped := [big; pdu 9] |}).
  assert (Hwf : Forall wf_op ops)
    by (repeat constructor; vm_compute; discriminate).
  assert (Hrun : run ops (start 4) = Returned h) by reflexivity.
  assert (Hempty : is_empty (now h) = true) by reflexivity.
  exists h.
  destruct (@empty_queue_reports_zero ops 4 h Hwf Hrun Hempty) as (H1 & H2 & _).
  split; [exact Hrun | split; [exact Hempty | split; [exact H1 | exact H2]]].
Defined.

(** ** Null handles never enter the store *)

Lemma step_handles_present (o : op) (h h' : history) :
  step h o h' -> handles_present h -> handles_present h'.
Proof.
  unfold handles_present, no_null.
  intros Hstep (Hpu & Hpo & Hre).
  destruct Hstep as [o p _ _ | m _ | o p rest _ Hres | _ | c | |];
    cbn [now pushed popped]; unfold resident in *;
    cbn [queue insert_tail with_slots circ_buffer resize reset set_size];
    try (split; [assumption | split; assumption]).
  - assert (Hp : Forall (fun b : unique_byte_buffer_t => b <> None) [Some p])
      by (repeat constructor; discriminate).
    split; [| split; [exact Hpo |]]; apply Forall_app; split; assumption.
  - rewrite Hres in Hre. inversion Hre as [| x l Hp Hrest]; subst.
    split; [exact Hpu | split; [| exact Hrest]].
    apply Forall_app. split; [exact Hpo | now repeat constructor].
Qed.

(** X4. [push_callback] reads [msg->N_bytes] without a null check, so a
    push of [nullptr] that is admitted does not return.  Hence for every
    sequence of calls that runs to its end from a fresh queue, no handle
    pushed, popped or resident is null; the head of a non-empty queue is a
    buffer, [size_tail_bytes] adds that buffer's length to 0, and a [read]
    or [try_read] that follows does not meet a null handle in
    [pop_callback]. *)
Theorem no_null_handle_stored (ops : list op) (c : Z) (h : history) :
  run ops (start c) = Returned h ->
  no_null (pushed h) /\ no_null (popped h) /\ no_null (resident (now h)) /\
  (is_empty (now h) = false ->
   exists p rest,
     resident (now h) = Some p :: rest /\
     fst (size_tail_bytes (now h)) = UInt32.add 0 (N_bytes p) /\
     exists q', read (now h) = Returned (Some p, q') /\
                try_read None (now h) = Returned (true, Some p, q')).
Proof.
  intros Hrun.
  assert (Hp : handles_present h).
  { apply run_invariant with (P := handles_present) (ops := ops) (h := start c);
      [| repeat split; constructor | exact Hrun].
    intros o a a' _. apply step_handles_present. }
  destruct Hp as (Hpu & Hpo & Hre).
  split; [exact Hpu | split; [exact Hpo | split; [exact Hre |]]].
  intros Hne.
  destruct (resident (now h)) as [| [p |] rest] eqn:Hres.
  - apply is_empty_resident in Hres. congruence.
  - exists p, rest. split; [reflexivity |].
    unfold resident in Hres.
    unfold size_tail_bytes, try_call_on_front, read, try_read, pop_blocking,
      try_pop.
    rewrite Hres. cbn. split; [reflexivity |]. eexists. split; reflexivity.
  - inversion Hre as [| x l Hx _]. congruence.
Qed.

Lemma no_null_handle_stored_witness :
  let ops := [Write (pdu 10); TryWrite (pdu 5); Read; Reset; Resize 1] in
  exists h,
    run ops (start 2) = Returned h /\
    no_null (pushed h) /\ no_null (popped h) /\ no_null (resident (now h)).
Proof.
  intros ops.
  pose (h := {| now := queue_of [pdu 5] 1 0;
                pushed := [pdu 10; pdu 5]; popped := [pdu 10] |}).
  assert (Hrun : run ops (start 2) = Returned h) by reflexivity.
  exists h.
  destruct (@no_null_handle_stored ops 2 h Hrun) as (H1 & H2 & H3 & _).
  split; [exact Hrun | split; [exact H1 | split; [exact H2 | exact H3]]].
Defined.

(** ** A counter at zero stays at zero under pops *)

Lemma step_drained_counter (o : op) (h h' : history) :
  step h o h' -> is_push o = false -> drained_counter h -> drained_counter h'.
Proof.
  unfold drained_counter.
  intros Hstep Hnp [Hz Hs].
  destruct Hstep as [o p Ho _ | m _ | o p rest _ Hres | _ | c | |];
    cbn [now]; unfold resident in *;
    cbn [queue unread_bytes insert_tail with_slots circ_buffer resize reset
         set_size];
    try (split; assumption); try discriminate.
  - destruct Ho as [-> | ->]; discriminate.
  - rewrite Hres in Hs. inversion Hs as [| x l Hp Hrest]; subst.
    apply buffer_length_nonneg in Hp. cbn [buffer_length] in Hp.
    split; [| exact Hrest].
    rewrite Hz, Z.min_r by lia. reflexivity.
  - split; [reflexivity | exact Hs].
Qed.

(** X5. The clamp of [pop_callback] at work: from any state whose counter
    reads 0 (after [reset], say) and whose buffers carry [uint32_t]
    lengths, every sequence of reads, non-blocking reads, peeks, resizes and
    resets that runs to its end leaves [size_bytes] at 0, however many
    bytes the popped buffers held; the counter does not wrap below zero. *)
Theorem zero_counter_survives_pops (ops : list op) (h h' : history) :
  Forall wf_buffer (resident (now h)) ->
  size_bytes (now h) = 0 ->
  existsb is_push ops = false ->
  run ops h = Returned h' ->
  size_bytes (now h') = 0 /\
  sum_lengths (popped h') - sum_lengths (popped h)
  = resident_bytes (now h) - resident_bytes (now h').
Proof.
  intros Hs Hz Hnp Hrun.
  pose (P := fun x : history =>
               drained_counter x /\
               sum_lengths (popped x) + resident_bytes (now x)
               = sum_lengths (popped h) + resident_bytes (now h)).
  assert (HP : P h') .
  { apply run_invariant with (P := P) (ops := ops) (h := h);
      [| split; [split; assumption | reflexivity] | exact Hrun].
    intros o a a' Hin Hstep [Hd Hsum].
    assert (Ho : is_push o = false).
    { destruct (is_push o) eqn:E; [| reflexivity].
      assert (Hex : existsb is_push ops = true)
        by (apply existsb_exists; exists o; split; assumption).
      congruence. }
    split; [now apply step_drained_counter with (o := o) (h := a) |].
    rewrite <- Hsum. clear Hsum Hd Hin.
    unfold resident_bytes.
    destruct Hstep as [o p Hpush _ | m _ | o p rest _ Hres | _ | c | |];
      cbn [now popped]; unfold resident in *;
      cbn [queue with_slots circ_buffer resize reset set_size];
      try reflexivity.
    - destruct Hpush as [-> | ->]; discriminate.
    - rewrite Hres, sum_lengths_app, !sum_lengths_cons.
      cbn [sum_lengths fold_right]. lia. }
  destruct HP as [[Hz' _] Hsum]. split; [exact Hz' | lia].
Qed.

Lemma zero_counter_survives_pops_witness :
  let q := queue_of [pdu 10; pdu 5; pdu 7] 4 22 in
  let h := {| now := reset q; pushed := []; popped := [] |} in
  let ops := [Read; SizeTailBytes; TryRead; Resize 1; Read; TryRead] in
  exists h',
    run ops h = Returned h' /\
    popped h' = [pdu 10; pdu 5; pdu 7] /\
    size_bytes (now h') = 0.
Proof.
  intros q h ops.
  pose (h' := {| now := queue_of [] 1 0; pushed := [];
                 popped := [pdu 10; pdu 5; pdu 7] |}).
  assert (Hs : Forall wf_buffer (resident (now h)))
    by (repeat constructor; vm_compute; discriminate).
  assert (Hz : size_bytes (now h) = 0) by reflexivity.
  assert (Hnp : existsb is_push ops = false) by reflexivity.
  assert (Hrun : run ops h = Returned h') by reflexivity.
  exists h'.
  destruct (@zero_counter_survives_pops ops h h' Hs Hz Hnp Hrun) as [H0 _].
  split; [exact Hrun | split; [reflexivity | exact H0]].
Defined.

(** ** The head of the line against the total *)

(** X6. For every sequence of calls without [reset] that runs to its end
    from a fresh queue while the resident lengths total less than [2^32],
    [size_tail_bytes] does not exceed [size_bytes]: the head-of-line buffer
    is part of what the counter reports. *)
Theorem head_within_total (ops : list op) (c : Z) (h : history) :
  Forall wf_op ops ->
  existsb is_reset ops = false ->
  fits ops (start c) = true ->
  run ops (start c) = Returned h ->
  0 <= fst (size_tail_bytes (now h)) <= size_bytes (now h).
Proof.
  intros Hwf Hnr Hfits Hrun.
  assert (Hacc : accounted h).
  { apply run_accounted with (ops := ops) (h := start c); try assumption.
    split; [reflexivity | constructor]. }
  destruct Hacc as [Hacc Hs]. unfold size_bytes. rewrite Hacc.
  unfold resident_bytes.
  destruct (resident (now h)) as [| [p |] rest] eqn:Hres.
  - unfold resident in Hres. unfold size_tail_bytes, try_call_on_front.
    rewrite Hres. cbn. lia.
  - inversion Hs as [| x l Hp Hrest]; subst. cbn [wf_buffer] in Hp.
    rewrite (@size_tail_bytes_front (now h) p rest Hres Hp).
    pose proof (sum_lengths_nonneg Hrest) as Hrn.
    rewrite sum_lengths_cons. cbn [buffer_length].
    unfold UInt32.in_range in Hp. lia.
  - inversion Hs as [| x l _ Hrest]; subst.
    pose proof (sum_lengths_nonneg Hrest) as Hrn.
    unfold resident in Hres. unfold size_tail_bytes, try_call_on_front.
    rewrite Hres. cbn [fst snd front_visitor].
    rewrite sum_lengths_cons. cbn [buffer_length]. lia.
Qed.

Lemma head_within_total_witness :
  let ops := [Write (pdu 10); TryWrite (pdu 5); Read; Write (pdu 7)] in
  exists h,
    run ops (start 2) = Returned h /\
    fst (size_tail_bytes (now h)) = 5 /\
    size_bytes (now h) = 12 /\
    0 <= fst (size_tail_bytes (now h)) <= size_bytes (now h).
Proof.
  intros ops.
  pose (h := {| now := queue_of [pdu 5; pdu 7] 2 12;
                pushed := [pdu 10; pdu 5; pdu 7]; popped := [pdu 10] |}).
  assert (Hwf : Forall wf_op ops)
    by (repeat constructor; vm_compute; discriminate).
  assert (Hnr : existsb is_reset ops = false) by reflexivity.
  assert (Hfits : fits ops (start 2) = true) by reflexivity.
  assert (Hrun : run ops (start 2) = Returned h) by reflexivity.
  exists h.
  pose proof (@head_within_total ops 2 h Hwf Hnr Hfits Hrun) as Hb.
  split; [exact Hrun | split; [reflexivity | split; [reflexivity | exact Hb]]].
Defined.

(** ** [size] as a 32-bit value *)

(** X9. [size] converts the occupancy to [uint32_t]: the result is always a
    [uint32_t] value, and while the occupancy is below [2^32] it is the
    occupancy itself, so that [size] is 0 exactly when [is_empty] holds; a
    [write] that returns then raises it by one unless it reaches [2^32],
    and a [read] that returns lowers it by one. *)
Theorem size_is_occupancy (q : byte_buffer_queue) :
  occupied_count (queue q) < 2 ^ 32 ->
  UInt32.in_range (size q) /\
  size q = occupied_count (queue q) /\
  (size q = 0 <-> is_empty q = true) /\
  (forall m q', write m q = Returned q' ->
                occupied_count (queue q') < 2 ^ 32 ->
                size q' = size q + 1) /\
  (forall b q', read q = Returned (b, q') -> size q' = size q - 1).
Proof.
  intros Hlt.
  assert (Hnn : 0 <= occupied_count (queue q))
    by (unfold occupied_count; lia).
  assert (Hsz : size q = occupied_count (queue q)).
  { unfold size. apply wrap_small. unfold UInt32.in_range, UInt32.modulus. lia. }
  split; [apply wrap_in_range |]. split; [exact Hsz |]. split; [| split].
  - rewrite Hsz. unfold is_empty, empty. now rewrite Z.eqb_eq.
  - intros m q' Hw Hlt'. rewrite Hsz.
    assert (Hnn' : 0 <= occupied_count (queue q'))
      by (unfold occupied_count; lia).
    unfold size. rewrite wrap_small
      by (unfold UInt32.in_range, UInt32.modulus; lia).
    apply write_returned in Hw. destruct Hw as (p & -> & _ & ->).
    unfold occupied_count. cbn [queue insert_tail circ_buffer].
    rewrite length_app. cbn [length]. unfold unique_byte_buffer_t in *. lia.
  - intros b q' Hr. rewrite Hsz.
    apply read_returned in Hr. destruct Hr as (p & rest & Hres & -> & ->).
    unfold resident in Hres. unfold size, occupied_count in *.
    cbn [queue with_slots circ_buffer]. rewrite Hres in Hlt, Hnn |- *.
    cbn [length] in *. rewrite wrap_small
      by (unfold UInt32.in_range, UInt32.modulus;
          unfold unique_byte_buffer_t in *; lia).
    unfold unique_byte_buffer_t in *. lia.
Qed.

Lemma size_is_occupancy_witness :
  let q := queue_of [pdu 10; pdu 5] 4 15 in
  size q = 2 /\
  (forall b q', read q = Returned (b, q') -> size q' = size q - 1).
Proof.
  intros q.
  assert (Hlt : occupied_count (queue q) < 2 ^ 32) by reflexivity.
  destruct (@size_is_occupancy q Hlt) as (_ & Hsz & _ & _ & Hr).
  split; [exact Hsz | exact Hr].
Defined.

(** ** A capacity that rules the wrap out *)

Lemma sum_lengths_bounded (L : Z) (l : list unique_byte_buffer_t) :
  Forall (fun b => buffer_length b <= L) l ->
  sum_lengths l <= Z.of_nat (length l) * L.
Proof.
  induction 1 as [| b l Hb _ IH].
  - reflexivity.
  - rewrite sum_lengths_cons. cbn [length]. lia.
Qed.

Lemma step_bounded_store (L c : Z) (o : op) (h h' : history) :
  0 <= L ->
  c * L < UInt32.modulus ->
  step h o h' ->
  quiet_op L o ->
  bounded_store L c h ->
  bounded_store L c h'.
Proof.
  intros HL HcL Hstep Hq (Hacc & Hb & Hcap & Hlen).
  assert (Hb' : within_bound h').
  { apply step_within_bound with (o := o) (h := h); try assumption.
    destruct o; try reflexivity. destruct Hq. }
  assert (Hcap' : capacity (queue (now h')) = c).
  { destruct Hstep as [o p _ _ | m _ | o p rest _ _ | _ | c0 | |];
      cbn [now queue insert_tail with_slots capacity reset]; try assumption.
    destruct Hq. }
  assert (Hlen' : Forall (fun b => buffer_length b <= L) (resident (now h'))).
  { destruct Hstep as [o p Ho _ | m _ | o p rest _ Hres | _ | c0 | |];
      cbn [now]; unfold resident in *;
      cbn [queue insert_tail with_slots circ_buffer resize reset set_size];
      try assumption.
    - apply Forall_app. split; [exact Hlen |].
      constructor; [| constructor].
      destruct Ho as [-> | ->]; apply Hq.
    - rewrite Hres in Hlen. now inversion Hlen. }
  repeat split; try assumption.
  - apply step_accounted with (o := o) (h := h); try assumption.
    + destruct o; cbn [quiet_op wf_op] in *; try exact I; try apply Hq.
    + destruct o; try reflexivity. destruct Hq.
    + pose proof (sum_lengths_bounded Hlen') as Hsum.
      unfold within_bound, occupied_count in Hb'. rewrite Hcap' in Hb'.
      unfold resident_bytes, resident in *.
      assert (Hmul : Z.of_nat (length (circ_buffer (queue (now h')))) * L
                     <= c * L) by (apply Z.mul_le_mono_nonneg_r; assumption).
      unfold unique_byte_buffer_t in *. lia.
  - apply step_accounted with (o := o) (h := h); try assumption.
    + destruct o; cbn [quiet_op wf_op] in *; try exact I; try apply Hq.
    + destruct o; try reflexivity. destruct Hq.
    + pose proof (sum_lengths_bounded Hlen') as Hsum.
      unfold within_bound, occupied_count in Hb'. rewrite Hcap' in Hb'.
      unfold resident_bytes, resident in *.
      assert (Hmul : Z.of_nat (length (circ_buffer (queue (now h')))) * L
                     <= c * L) by (apply Z.mul_le_mono_nonneg_r; assumption).
      unfold unique_byte_buffer_t in *. lia.
Qed.

(** X10. A capacity that rules the wrap out.  On a queue built with
    capacity [c] and never resized or reset, fed with buffers of at most
    [L] bytes where [c * L < 2^32], every sequence of writes, reads and
    peeks that runs to its end leaves [size_bytes] equal to the sum of the
    lengths of the resident buffers, at most [size * L]; with the default
    capacity 128 this covers buffers of up to 33554431 bytes. *)
Theorem bounded_buffers_never_wrap
        (L c : Z) (ops : list op) (h : history) :
  0 <= L ->
  0 <= c ->
  c * L < 2 ^ 32 ->
  Forall (quiet_op L) ops ->
  run ops (start c) = Returned h ->
  size_bytes (now h) = resident_bytes (now h) /\
  size_bytes (now h) <= occupied_count (queue (now h)) * L /\
  occupied_count (queue (now h)) <= c /\
  default_capacity * 33554431 < 2 ^ 32.
Proof.
  intros HL Hc HcL Hq Hrun.
  assert (HB : bounded_store L c h).
  { apply run_invariant with (P := bounded_store L c) (ops := ops)
                             (h := start c); [| | exact Hrun].
    - intros o a a' Hin Hstep.
      apply step_bounded_store with (o := o); try assumption.
      rewrite Forall_forall in Hq. now apply Hq.
    - repeat split; try constructor. exact Hc. }
  destruct HB as ((Hacc & _) & Hb & Hcap & Hlen).
  pose proof (sum_lengths_bounded Hlen) as Hsum.
  unfold within_bound in Hb. rewrite Hcap in Hb.
  unfold size_bytes, resident_bytes, occupied_count, resident in *.
  rewrite Hacc. repeat split; try assumption. 
Qed.

Lemma bounded_buffers_never_wrap_witness :
  let ops := [Write (pdu 12756); TryWrite (pdu 9000); Read; SizeTailBytes;
              Write (pdu 40); TryWrite (pdu 1); TryRead] in
  exists h,
    run ops (start 2) = Returned h /\
    size_bytes (now h) = 40 /\
    size_bytes (now h) = resident_bytes (now h).
Proof.
  intros ops.
  pose (h := {| now := queue_of [pdu 40] 2 40;
                pushed := [pdu 12756; pdu 9000; pdu 40];
                popped := [pdu 12756; pdu 9000] |}).
  assert (HL : 0 <= 12756) by discriminate.
  assert (Hc : 0 <= 2) by discriminate.
  assert (HcL : 2 * 12756 < 2 ^ 32) by reflexivity.
  assert (Hq : Forall (quiet_op 12756) ops)
    by (repeat constructor; vm_compute; discriminate).
  assert (Hrun : run ops (start 2) = Returned h) by reflexivity.
  exists h.
  destruct (@bounded_buffers_never_wrap 12756 2 ops h HL Hc HcL Hq Hrun)
    as (Heq & _).
  split; [exact Hrun | split; [reflexivity | exact Heq]].
Defined.

(** ** [is_full] and admission *)

Lemma rejected_iff_no_free_slot (m : unique_byte_buffer_t) (q : byte_buffer_queue) :
  (try_write m q = Returned (Error m, q) <-> has_free_slot (queue q) = false) /\
  (write m q = Suspended <-> has_free_slot (queue q) = false).
Proof.
  unfold try_write, write, try_push, push_blocking.
  destruct (has_free_slot (queue q)); destruct m as [p |]; cbn;
    rewrite ?queue_eta; repeat split; intros; try discriminate; reflexivity.
Qed.

(** X11. [is_full] predicts the rejection.  On any state, a full queue
    rejects every [try_write] and suspends every [write].  For every
    sequence of calls from a fresh queue in which no resize sets the bound
    below the occupancy of the moment, the converse holds as well:
    [try_write] is rejected, and [write] suspends, exactly when [is_full]
    holds. *)
Theorem is_full_predicts_rejection
        (ops : list op) (c : Z) (h : history)
        (q : byte_buffer_queue) (m : unique_byte_buffer_t) :
  0 <= c ->
  never_shrinks_below ops (start c) = true ->
  run ops (start c) = Returned h ->
  (is_full q = true ->
   try_write m q = Returned (Error m, q) /\ write m q = Suspended) /\
  (is_full (now h) = true <->
   try_write m (now h) = Returned (Error m, now h)) /\
  (is_full (now h) = true <-> write m (now h) = Suspended).
Proof.
  intros Hc Hns Hrun.
  assert (Hb : within_bound h).
  { apply (@run_within_bound ops (start c) h Hns); [| exact Hrun].
    unfold within_bound, occupied_count. cbn. exact Hc. }
  unfold within_bound in Hb.
  destruct (rejected_iff_no_free_slot m q) as [Htq Hwq].
  destruct (rejected_iff_no_free_slot m (now h)) as [Hth Hwh].
  assert (Hfull : forall x : byte_buffer_queue,
             is_full x = true -> has_free_slot (queue x) = false).
  { intros x. unfold is_full, full, has_free_slot.
    rewrite Z.eqb_eq, Z.ltb_ge. lia. }
  assert (Hconv : has_free_slot (queue (now h)) = false ->
                  is_full (now h) = true).
  { unfold is_full, full, has_free_slot. rewrite Z.eqb_eq, Z.ltb_ge. lia. }
  split; [| split].
  - intros Hf. apply Hfull in Hf. split; [now apply Htq | now apply Hwq].
  - rewrite Hth. split; [apply Hfull | exact Hconv].
  - rewrite Hwh. split; [apply Hfull | exact Hconv].
Qed.

Lemma is_full_predicts_rejection_witness :
  let ops := [Write (pdu 10); TryWrite (pdu 5)] in
  exists h,
    run ops (start 2) = Returned h /\
    is_full (now h) = true /\
    try_write (pdu 3) (now h) = Returned (Error (pdu 3), now h) /\
    write (pdu 3) (now h) = Suspended.
Proof.
  intros ops.
  pose (h := {| now := queue_of [pdu 10; pdu 5] 2 15;
                pushed := [pdu 10; pdu 5]; popped := [] |}).
  assert (Hc : 0 <= 2) by discriminate.
  assert (Hns : never_shrinks_below ops (start 2) = true) by reflexivity.
  assert (Hrun : run ops (start 2) = Returned h) by reflexivity.
  assert (Hf : is_full (now h) = true) by reflexivity.
  exists h.
  destruct (@is_full_predicts_rejection ops 2 h (now h) (pdu 3) Hc Hns Hrun)
    as (_ & Ht & Hw).
  split; [exact Hrun | split; [exact Hf | split]].
  - apply Ht. exact Hf.
  - apply Hw. exact Hf.
Defined.
